(** * Link rendering pipe and URL metadata service: a shallow embedding

    The development follows [render-links.pipe.ts] and
    [url-metadata.service.ts].  JavaScript strings are modelled as lists of
    8-bit code units (the Latin-1 range of UTF-16); the regular expressions
    of the source are kept as syntax trees and run by a backtracking matcher
    written in the continuation style of the ECMAScript specification. *)

From Stdlib Require Import Ascii String List Arith Bool Lia NArith.
From stdpp Require Import gmap strings list.
Import ListNotations.

Abbreviation str := (list ascii).

(** String literals of the source are written [lit "..."]. *)
Definition lit (s : string) : str := list_ascii_of_string s.

(** The double quote character, written by its code. *)
Definition dquote : ascii := "034"%char.

(** ** JavaScript string primitives *)
Module JsString.

Definition code (c : ascii) : N := N_of_ascii c.

(** WhiteSpace and LineTerminator code units below 256:
    TAB, LF, VT, FF, CR, SPACE and NO-BREAK SPACE. *)
Definition isWhiteSpace (c : ascii) : bool :=
  let n := code c in
  ((9 <=? n) && (n <=? 13) || (n =? 32) || (n =? 160))%N.

(** [A-Za-z0-9_], the word characters of [\b]. *)
Definition isWordChar (c : ascii) : bool :=
  let n := code c in
  ((65 <=? n) && (n <=? 90) || (97 <=? n) && (n <=? 122)
   || (48 <=? n) && (n <=? 57) || (n =? 95))%N.

(** [toLowerCase] on one code unit: A-Z and the accented capitals
    U+00C0..U+00DE (without the multiplication sign U+00D7). *)
Definition toLowerChar (c : ascii) : ascii :=
  let n := code c in
  if ((65 <=? n) && (n <=? 90)
      || (192 <=? n) && (n <=? 222) && negb (n =? 215))%N
  then ascii_of_N (n + 32) else c.

(** The case folding of a regular expression with the [i] flag and
    without the [u] flag (Canonicalize): simple upper-casing.  The two
    code units whose capital lies outside Latin-1 (U+00B5, U+00FF) and
    U+00DF, whose capital is two units long, stay as they are; this
    decides equality of folded 8-bit units exactly as the engine does. *)
Definition canonicalize (c : ascii) : ascii :=
  let n := code c in
  if ((97 <=? n) && (n <=? 122)
      || (224 <=? n) && (n <=? 254) && negb (n =? 247))%N
  then ascii_of_N (n - 32) else c.

Definition toLowerCase (s : str) : str := map toLowerChar s.

Fixpoint trimStart (s : str) : str :=
  match s with
  | c :: t => if isWhiteSpace c then trimStart t else s
  | [] => []
  end.

Definition trimEnd (s : str) : str := rev (trimStart (rev s)).

Definition trim (s : str) : str := trimEnd (trimStart s).

(** [s.startsWith(p)] *)
Fixpoint startsWith (s p : str) {struct p} : bool :=
  match p with
  | [] => true
  | a :: p' =>
      match s with
      | b :: s' => Ascii.eqb b a && startsWith s' p'
      | [] => false
      end
  end.

(** [s.includes(p)] *)
Fixpoint includes (s p : str) : bool :=
  startsWith s p ||
  match s with
  | [] => false
  | _ :: t => includes t p
  end.

End JsString.

(** ** Regular expressions *)
Module RegExp.
Import JsString.

(** One-character patterns. *)
Inductive atom : Type :=
| Chr (c : ascii)             (* a literal character *)
| AnyChar                     (* [.] under the [s] flag *)
| OneOf (cs : str)            (* [[abc]] *)
| NoneOf (cs : str)           (* [[^abc]] *)
| SpaceChar                   (* [\s] *)
| NonSpace.                   (* [\S] *)

(** Patterns.  Every quantifier of the source applies to a one-character
    pattern, so [Quant] carries an atom; [(?: )] only groups and leaves no
    node. *)
Inductive regex : Type :=
| Empty
| A (a : atom)
| Seq (r1 r2 : regex)
| Alt (r1 r2 : regex)
| Quant (greedy : bool) (min : nat) (max : option nat) (a : atom)
| Group (n : nat) (r : regex)         (* capturing group number [n] *)
| LookAhead (r : regex)               (* [(?=r)] *)
| AssertStart                         (* [^] without the [m] flag *)
| AssertEnd                           (* [$] without the [m] flag *)
| WordBoundary.                       (* [\b] *)

(** A literal string as a pattern. *)
Fixpoint Lit (s : str) : regex :=
  match s with
  | [] => Empty
  | [c] => A (Chr c)
  | c :: t => Seq (A (Chr c)) (Lit t)
  end.

Definition Star (a : atom) : regex := Quant true 0 None a.
Definition Plus (a : atom) : regex := Quant true 1 None a.
Definition LazyStar (a : atom) : regex := Quant false 0 None a.
Definition Opt (a : atom) : regex := Quant true 0 (Some 1) a.
Definition Between (lo hi : nat) (a : atom) : regex :=
  Quant true lo (Some hi) a.

(** A regular expression object: the pattern and its flags.  The
    [lastIndex] of a shared object is kept by its owner. *)
Record regexp : Type := {
  source : regex;
  global : bool;
  ignoreCase : bool
}.

(** The position of a match in progress: the character before it (for
    [^] and [\b]), the input still ahead, and the captures so far. *)
Record MatchState : Type := {
  prev : option ascii;
  rest : str;
  captures : list (nat * str)
}.

Definition same_char (ic : bool) (a b : ascii) : bool :=
  if ic then Ascii.eqb (canonicalize a) (canonicalize b) else Ascii.eqb a b.

Definition atom_matches (ic : bool) (a : atom) (c : ascii) : bool :=
  match a with
  | Chr x => same_char ic c x
  | AnyChar => true
  | OneOf cs => existsb (same_char ic c) cs
  | NoneOf cs => negb (existsb (same_char ic c) cs)
  | SpaceChar => isWhiteSpace c
  | NonSpace => negb (isWhiteSpace c)
  end.

Definition is_word (o : option ascii) : bool :=
  match o with
  | Some c => isWordChar c
  | None => false
  end.

Definition may_repeat (max : option nat) : bool :=
  match max with
  | Some 0 => false
  | _ => true
  end.

Definition one_less (max : option nat) : option nat :=
  match max with
  | Some n => Some (Nat.pred n)
  | None => None
  end.

Section Matcher.
Variable ic : bool.

(** A quantified atom.  A greedy quantifier tries one more character
    before it tries to stop; a lazy one tries to stop first. *)
Fixpoint repeat_atom {R : Type} (a : atom) (greedy : bool)
    (min : nat) (max : option nat) (caps : list (nat * str))
    (k : MatchState -> option R) (p : option ascii) (s : str)
    {struct s} : option R :=
  let stop (_ : unit) :=
    match min with
    | 0 => k {| prev := p; rest := s; captures := caps |}
    | S _ => None
    end in
  let more (_ : unit) :=
    match s with
    | c :: t =>
        if atom_matches ic a c && may_repeat max
        then repeat_atom a greedy (Nat.pred min) (one_less max)
               caps k (Some c) t
        else None
    | [] => None
    end in
  if greedy
  then match more tt with Some x => Some x | None => stop tt end
  else match stop tt with Some x => Some x | None => more tt end.

(** The matcher of a pattern: it calls the continuation [k] on every
    state the pattern can end in, in the engine's order of preference,
    until [k] succeeds. *)
Fixpoint run (r : regex) {R : Type} (st : MatchState)
    (k : MatchState -> option R) {struct r} : option R :=
  match r with
  | Empty => k st
  | A a =>
      match rest st with
      | c :: t =>
          if atom_matches ic a c
          then k {| prev := Some c; rest := t; captures := captures st |}
          else None
      | [] => None
      end
  | Seq r1 r2 => run r1 st (fun st1 => run r2 st1 k)
  | Alt r1 r2 =>
      match run r1 st k with
      | Some x => Some x
      | None => run r2 st k
      end
  | Quant greedy min max a =>
      repeat_atom a greedy min max (captures st) k (prev st) (rest st)
  | Group n r1 =>
      run r1 st (fun st1 =>
        k {| prev := prev st1; rest := rest st1;
             captures :=
               (n, take (length (rest st) - length (rest st1)) (rest st))
               :: captures st1 |})
  | LookAhead r1 =>
      match run r1 st (fun _ => Some tt) with
      | Some _ => k st
      | None => None
      end
  | AssertStart =>
      match prev st with
      | None => k st
      | Some _ => None
      end
  | AssertEnd =>
      match rest st with
      | [] => k st
      | _ :: _ => None
      end
  | WordBoundary =>
      if xorb (is_word (prev st)) (is_word (head (rest st)))
      then k st else None
  end.
End Matcher.

(** The result of a successful match. *)
Record MatchResult : Type := {
  index : nat;                  (* where the match starts *)
  matched : str;                (* element 0 of the result array *)
  groups : list (nat * str);
  after : MatchState            (* the position just behind the match *)
}.

Definition lastIndexOf (s : str) (m : MatchResult) : nat :=
  length s - length (rest (after m)).

Definition group (n : nat) (m : MatchResult) : str :=
  match find (fun p => Nat.eqb (fst p) n) (groups m) with
  | Some p => snd p
  | None => []
  end.

(** One attempt at the current position. *)
Definition match_here (re : regexp) (p : option ascii) (s : str)
    : option MatchState :=
  run (ignoreCase re) (source re)
      {| prev := p; rest := s; captures := [] |} Some.

(** The search loop of RegExpBuiltinExec: try the current position, then
    the next one, up to and including the end of the input. *)
Fixpoint scan (re : regexp) (p : option ascii) (s : str) (i : nat)
    : option MatchResult :=
  match match_here re p s with
  | Some e =>
      Some {| index := i;
              matched := take (length s - length (rest e)) s;
              groups := captures e;
              after := e |}
  | None =>
      match s with
      | [] => None
      | c :: t => scan re (Some c) t (S i)
      end
  end.

(** [re.exec(s)] started at [lastIndex]. *)
Definition exec_from (re : regexp) (s : str) (lastIndex : nat)
    : option MatchResult :=
  if length s <? lastIndex then None
  else scan re (last (take lastIndex s)) (drop lastIndex s) lastIndex.

(** [re.test(s)] on an object whose [lastIndex] is [li]: the answer and
    the new [lastIndex].  Without the [g] flag the search starts at 0 and
    [lastIndex] is left alone. *)
Definition test (re : regexp) (li : nat) (s : str) : bool * nat :=
  if global re then
    match exec_from re s li with
    | Some m => (true, lastIndexOf s m)
    | None => (false, 0)
    end
  else
    match exec_from re s 0 with
    | Some _ => (true, li)
    | None => (false, li)
    end.

(** The loop of [RegExp.prototype[Symbol.replace]] for a global
    expression, from the position [(p, s)] on: the text up to the next
    match, the replacement, and so on.  An empty match moves one
    character ahead.  [fuel] bounds the number of matches. *)
Fixpoint replace_loop (fuel : nat) (re : regexp)
    (f : MatchResult -> str) (p : option ascii) (s : str) : str :=
  match fuel with
  | 0 => s
  | S fuel' =>
      match scan re p s 0 with
      | None => s
      | Some m =>
          take (index m) s ++ f m ++
          match matched m, rest (after m) with
          | [], c :: t => c :: replace_loop fuel' re f (Some c) t
          | [], [] => []
          | _ :: _, s' => replace_loop fuel' re f (prev (after m)) s'
          end
      end
  end.

(** [s.replace(re, f)].  With the [g] flag the search starts at 0
    whatever [lastIndex] was, and leaves [lastIndex] at 0. *)
Definition replace (re : regexp) (f : MatchResult -> str) (s : str) : str :=
  if global re then replace_loop (S (length s)) re f None s
  else
    match scan re None s 0 with
    | None => s
    | Some m => take (index m) s ++ f m ++ rest (after m)
    end.

(** The character before a position [w] further on. *)
Definition prev_after (p : option ascii) (w : str) : option ascii :=
  match last w with
  | Some c => Some c
  | None => p
  end.

Definition within (max : option nat) (n : nat) : Prop :=
  match max with
  | Some m => n <= m
  | None => True
  end.

(** What a pattern stands for: [denotes ic r p w rest] says that [r]
    can match the text [w] found behind the character [p] and in front
    of [rest].  Order of preference and captures are left out. *)
Fixpoint denotes (ic : bool) (r : regex) (p : option ascii)
    (w rest : str) : Prop :=
  match r with
  | Empty => w = []
  | A a => exists c, w = [c] /\ atom_matches ic a c = true
  | Seq r1 r2 =>
      exists w1 w2,
        w = w1 ++ w2 /\ denotes ic r1 p w1 (w2 ++ rest) /\
        denotes ic r2 (prev_after p w1) w2 rest
  | Alt r1 r2 => denotes ic r1 p w rest \/ denotes ic r2 p w rest
  | Quant _ min max a =>
      min <= length w /\ within max (length w) /\
      Forall (fun c => atom_matches ic a c = true) w
  | Group _ r1 => denotes ic r1 p w rest
  | LookAhead r1 =>
      w = [] /\
      exists w1 rest1, rest = w1 ++ rest1 /\ denotes ic r1 p w1 rest1
  | AssertStart => w = [] /\ p = None
  | AssertEnd => w = [] /\ rest = []
  | WordBoundary =>
      w = [] /\ xorb (is_word p) (is_word (head rest)) = true
  end.

(** The number of characters at the start of [s] that satisfy [f]. *)
Fixpoint runLength (f : ascii -> bool) (s : str) : nat :=
  match s with
  | c :: t => if f c then S (runLength f t) else 0
  | [] => 0
  end.

Definition allows (max : option nat) (n : nat) : bool :=
  match max with
  | Some m => n <=? m
  | None => true
  end.

(** [s] starts with the literal [l], compared as the flag says. *)
Fixpoint starts (ic : bool) (s l : str) {struct l} : bool :=
  match l with
  | [] => true
  | x :: l' =>
      match s with
      | c :: s' => same_char ic c x && starts ic s' l'
      | [] => false
      end
  end.

(** Patterns that cannot match the empty string, by their shape. *)
Fixpoint nonempty (r : regex) : bool :=
  match r with
  | A _ => true
  | Seq r1 r2 => nonempty r1 || nonempty r2
  | Alt r1 r2 => nonempty r1 && nonempty r2
  | Quant _ min _ _ => negb (Nat.eqb min 0)
  | Group _ r1 => nonempty r1
  | _ => false
  end.

(** [s.match(re)] for an expression without the [g] flag. *)
Definition match_ (re : regexp) (s : str) : option MatchResult :=
  scan re None s 0.

End RegExp.

Declare Scope regex_scope.
Delimit Scope regex_scope with re.
Infix "~>" := RegExp.Seq (at level 41, right associativity) : regex_scope.
Infix "</>" := RegExp.Alt (at level 42, right associativity) : regex_scope.

(** ** The pipe of [render-links.pipe.ts] *)
Module RenderLinksPipe.
Import JsString RegExp.
Local Open Scope regex_scope.

(** [(?=\s|$)] *)
Definition before_space_or_end : regex :=
  LookAhead (A SpaceChar </> AssertEnd).

(** [/(?:(?:https?|file):\/\/\S{1,2000}(?=\s|$)|www\.\S{1,2000}(?=\s|$))/gi] *)
Definition URL_REGEX : regexp :=
  {| source :=
       ((Lit (lit "http") ~> Opt (Chr "s") </> Lit (lit "file"))
          ~> Lit (lit "://")
          ~> Between 1 2000 NonSpace ~> before_space_or_end)
       </> (Lit (lit "www.")
          ~> Between 1 2000 NonSpace ~> before_space_or_end);
     global := true;
     ignoreCase := true |}.

(** [/\[([^\]]+)\]\(([^)]+)\)/g] *)
Definition MARKDOWN_LINK_REGEX : regexp :=
  {| source :=
       A (Chr "[") ~> Group 1 (Plus (NoneOf (lit "]")))
         ~> A (Chr "]") ~> A (Chr "(")
         ~> Group 2 (Plus (NoneOf (lit ")"))) ~> A (Chr ")");
     global := true;
     ignoreCase := false |}.

(** [/<a\b[^>]*>.*?<\/a>/gs] *)
Definition anchorRegex : regexp :=
  {| source :=
       Lit (lit "<a") ~> WordBoundary ~> Star (NoneOf (lit ">"))
         ~> A (Chr ">") ~> LazyStar AnyChar ~> Lit (lit "</a>");
     global := true;
     ignoreCase := false |}.

(** [/[.,;!?]+$/] *)
Definition trailingPunctuation : regexp :=
  {| source := Plus (OneOf (lit ".,;!?")) ~> AssertEnd;
     global := false;
     ignoreCase := false |}.

(** [/^(?:https?|file):\/\//] *)
Definition schemePrefix : regexp :=
  {| source :=
       AssertStart
         ~> (Lit (lit "http") ~> Opt (Chr "s") </> Lit (lit "file"))
         ~> Lit (lit "://");
     global := false;
     ignoreCase := false |}.

(** [/c/g] for one character [c]. *)
Definition every (c : ascii) : regexp :=
  {| source := A (Chr c); global := true; ignoreCase := false |}.

(** The two module-level expression objects are shared by all calls;
    what a call can observe of them is their [lastIndex]. *)
Record Regexps : Type := {
  URL_REGEX_lastIndex : nat;
  MARKDOWN_LINK_REGEX_lastIndex : nat
}.

Definition set_url (n : nat) (σ : Regexps) : Regexps :=
  {| URL_REGEX_lastIndex := n;
     MARKDOWN_LINK_REGEX_lastIndex := MARKDOWN_LINK_REGEX_lastIndex σ |}.

Definition set_md (n : nat) (σ : Regexps) : Regexps :=
  {| URL_REGEX_lastIndex := URL_REGEX_lastIndex σ;
     MARKDOWN_LINK_REGEX_lastIndex := n |}.

Definition fresh : Regexps :=
  {| URL_REGEX_lastIndex := 0; MARKDOWN_LINK_REGEX_lastIndex := 0 |}.

Definition _escapeHtml (text : str) : str :=
  replace (every dquote) (fun _ => lit "&quot;")
    (replace (every ">") (fun _ => lit "&gt;")
      (replace (every "<") (fun _ => lit "&lt;")
        (replace (every "&") (fun _ => lit "&amp;") text))).

Definition dangerousSchemes : list str :=
  [lit "javascript:"; lit "data:"; lit "vbscript:"].

Definition _isUrlSchemeSafe (url : str) : bool :=
  let lowerUrl := toLowerCase (trim url) in
  if existsb (fun scheme => startsWith lowerUrl scheme) dangerousSchemes
  then false
  else if startsWith lowerUrl (lit "http://")
          || startsWith lowerUrl (lit "https://")
          || startsWith lowerUrl (lit "file://")
          || startsWith lowerUrl (lit "//")
  then true
  else if negb (includes lowerUrl (lit "://"))
  then true
  else false.

Definition _normalizeHref (url : str) : str :=
  match match_ schemePrefix url with
  | Some _ => url
  | None =>
      if startsWith url (lit "//")
      then lit "https:" ++ url
      else lit "http://" ++ url
  end.

(** The template literal of both callbacks. *)
Definition anchor (escapedHref escapedText : str) : str :=
  lit "<a href=" ++ [dquote] ++ escapedHref ++ [dquote]
    ++ lit " target=" ++ [dquote] ++ lit "_blank" ++ [dquote]
    ++ lit " rel=" ++ [dquote] ++ lit "noopener noreferrer" ++ [dquote]
    ++ lit ">" ++ escapedText ++ lit "</a>".

(** The callback of the markdown replacement, on [title] and [url]. *)
Definition markdownLink (title url : str) : str :=
  if negb (_isUrlSchemeSafe url) then _escapeHtml title
  else
    let href := _normalizeHref url in
    let escapedHref := _escapeHtml href in
    let escapedTitle := _escapeHtml title in
    anchor escapedHref escapedTitle.

(** The callback of the plain-URL replacement. *)
Definition plainUrl (url : str) : str :=
  let cleanUrl := replace trailingPunctuation (fun _ => []) url in
  if negb (_isUrlSchemeSafe cleanUrl) then _escapeHtml cleanUrl
  else
    let href := _normalizeHref cleanUrl in
    let escapedHref := _escapeHtml href in
    let escapedDisplay := _escapeHtml cleanUrl in
    anchor escapedHref escapedDisplay.

Definition replaceMarkdown (s : str) : str :=
  replace MARKDOWN_LINK_REGEX
    (fun m => markdownLink (group 1 m) (group 2 m)) s.

Definition replaceUrls (s : str) : str :=
  replace URL_REGEX (fun m => plainUrl (matched m)) s.

Record Part : Type := { text : str; isAnchor : bool }.

(** The [while] loop over [anchorRegex.exec], from the position
    [(p, s)] = [lastIndex] on.  An expression that matched the empty
    string would keep the loop at the same [lastIndex] for ever; running
    out of [fuel] stands for that. *)
Fixpoint anchorParts (fuel : nat) (p : option ascii) (s : str)
    : option (list Part) :=
  match fuel with
  | 0 => None
  | S fuel' =>
      match scan anchorRegex p s 0 with
      | Some anchorMatch =>
          match anchorParts fuel' (prev (after anchorMatch))
                                  (rest (after anchorMatch)) with
          | Some parts =>
              Some ((if 0 <? index anchorMatch
                     then [{| text := take (index anchorMatch) s;
                              isAnchor := false |}]
                     else [])
                    ++ {| text := matched anchorMatch; isAnchor := true |}
                    :: parts)
          | None => None
          end
      | None =>
          Some (if 0 <? length s
                then [{| text := s; isAnchor := false |}]
                else [])
      end
  end.

(** The segments of a string: anchors already there, and the text
    between them. *)
Definition segments (s : str) : option (list Part) :=
  anchorParts (S (length s)) None s.

(** [parts.map(...)]: an anchor is returned as it is; any other part
    resets [URL_REGEX.lastIndex] and has its URLs replaced. *)
Fixpoint renderParts (σ : Regexps) (parts : list Part)
    : list str * Regexps :=
  match parts with
  | [] => ([], σ)
  | part :: more =>
      if isAnchor part then
        let '(out, σ') := renderParts σ more in
        (text part :: out, σ')
      else
        let σ1 := set_url 0 σ in
        let piece := replaceUrls (text part) in
        let '(out, σ') := renderParts (set_url 0 σ1) more in
        (piece :: out, σ')
  end.

(** The body of [if (hasUrls)]: the segments, each one rendered, joined
    again. *)
Definition linkPlainUrls (σ : Regexps) (htmlWithLinks : str)
    : option (str * Regexps) :=
  match segments htmlWithLinks with
  | Some parts =>
      let '(pieces, σ') := renderParts σ parts in
      Some (concat pieces, σ')
  | None => None
  end.

Definition bypassSecurityTrustHtml (html : str) : str := html.

(** [transform(text, renderLinks)], on the shared expression objects in
    the state [σ].  [None] stands for a call that does not return. *)
Definition transform (σ : Regexps) (text : str) (renderLinks : bool)
    : option (str * Regexps) :=
  match text with
  | [] => Some ([], σ)
  | _ :: _ =>
    if negb renderLinks
    then Some (bypassSecurityTrustHtml (_escapeHtml text), σ)
    else
      let hasUrlHint :=
        includes text (lit "://") || includes text (lit "www.") in
      let hasMarkdownHint := includes text (lit "](") in
      if negb hasUrlHint && negb hasMarkdownHint
      then Some (bypassSecurityTrustHtml (_escapeHtml text), σ)
      else
        let htmlWithLinks := text in
        let σ := set_md 0 σ in
        let '(hasMarkdown, li) :=
          test MARKDOWN_LINK_REGEX (MARKDOWN_LINK_REGEX_lastIndex σ) text in
        let σ := set_md li σ in
        let '(htmlWithLinks, σ) :=
          if hasMarkdown
          then (replaceMarkdown htmlWithLinks, set_md 0 (set_md 0 σ))
          else (htmlWithLinks, σ) in
        let σ := set_url 0 σ in
        let '(hasUrls, li) :=
          test URL_REGEX (URL_REGEX_lastIndex σ) htmlWithLinks in
        let σ := set_url li σ in
        let step :=
          if hasUrls then linkPlainUrls σ htmlWithLinks
          else Some (htmlWithLinks, σ) in
        match step with
        | Some (htmlWithLinks, σ) =>
            if negb hasMarkdown && negb hasUrls
            then Some (bypassSecurityTrustHtml (_escapeHtml text), σ)
            else Some (bypassSecurityTrustHtml htmlWithLinks, σ)
        | None => None
        end
  end.

(** The rendered text of a call on fresh expression objects. *)
Definition render (text : str) (renderLinks : bool) : option str :=
  option_map fst (transform fresh text renderLinks).

End RenderLinksPipe.

(** ** The service of [url-metadata.service.ts] *)
Module UrlMetadataService.
Import JsString RegExp.
Local Open Scope regex_scope.

Definition quote : atom := OneOf [dquote; "'"%char].
Definition notQuote : atom := NoneOf [dquote; "'"%char].

(** [/<title[^>]*>([^<]+)<\/title>/i] *)
Definition titleTag : regexp :=
  {| source :=
       Lit (lit "<title") ~> Star (NoneOf (lit ">")) ~> A (Chr ">")
         ~> Group 1 (Plus (NoneOf (lit "<"))) ~> Lit (lit "</title>");
     global := false;
     ignoreCase := true |}.

(** [/<meta[^>]*property=[Q]og:title[Q][^>]*content=[Q]([^Q]+)[Q]/i],
    where [Q] stands for the two quote characters of the source. *)
Definition ogTitle : regexp :=
  {| source :=
       Lit (lit "<meta") ~> Star (NoneOf (lit ">"))
         ~> Lit (lit "property=") ~> A quote ~> Lit (lit "og:title")
         ~> A quote ~> Star (NoneOf (lit ">"))
         ~> Lit (lit "content=") ~> A quote ~> Group 1 (Plus notQuote)
         ~> A quote;
     global := false;
     ignoreCase := true |}.

(** [/<meta[^>]*content=[Q]([^Q]+)[Q][^>]*property=[Q]og:title[Q]/i] *)
Definition ogTitleReversed : regexp :=
  {| source :=
       Lit (lit "<meta") ~> Star (NoneOf (lit ">"))
         ~> Lit (lit "content=") ~> A quote ~> Group 1 (Plus notQuote)
         ~> A quote ~> Star (NoneOf (lit ">"))
         ~> Lit (lit "property=") ~> A quote ~> Lit (lit "og:title")
         ~> A quote;
     global := false;
     ignoreCase := true |}.

(** A string in a condition: the empty string counts as false. *)
Definition truthy (s : str) : bool :=
  match s with
  | [] => false
  | _ :: _ => true
  end.

(** [m && m[1]] followed by [m[1].trim()] *)
Definition firstGroup (o : option MatchResult) : option str :=
  match o with
  | Some m => if truthy (group 1 m) then Some (trim (group 1 m)) else None
  | None => None
  end.

Definition _extractTitle (html : str) : option str :=
  match firstGroup (match_ titleTag html) with
  | Some t => Some t
  | None =>
      match firstGroup (match_ ogTitle html) with
      | Some t => Some t
      | None => firstGroup (match_ ogTitleReversed html)
      end
  end.

(** How an awaited promise settles. *)
Inductive Settled (T : Type) : Type :=
| Fulfilled (v : T)
| Rejected.
Arguments Fulfilled {T} v.
Arguments Rejected {T}.

(** What a call made by the function body of a request does where it
    stands, before anything is awaited: it throws, or it returns a
    promise, which settles later. *)
Inductive Called (T : Type) : Type :=
| Throws
| Returns (promise : Settled T).
Arguments Throws {T}.
Arguments Returns {T} promise.

(** What is outside the service.  [useElectron] is
    [_isElectron && window.ea?.fetchUrlMetadata]; [fetchUrlMetadata] is
    what the call to the main process does, with [result.title] when its
    promise is fulfilled; [httpGet] is what [firstValueFrom] of the
    request piped through [timeout] and [catchError] does: its promise is
    fulfilled with the body, or with [null] after an error or a timeout,
    or it is rejected. *)
Record World : Type := {
  useElectron : bool;
  fetchUrlMetadata : str -> Called (option str);
  httpGet : str -> Called (option str)
}.

(** A promise kept in [_pendingRequests]: one whose request is under
    way, known by the [fallbackTitle] its function body has captured, or
    one that was fulfilled inside the call that made it. *)
Inductive Promise : Type :=
| InFlight (fallbackTitle : str)
| Done (title : str).

(** The two maps of the service.  [requested] lists the URLs the request
    was made for, the latest first. *)
Record Service : Type := {
  _cache : gmap str str;
  _pendingRequests : gmap str Promise;
  requested : list str
}.

Definition empty : Service :=
  {| _cache := ∅; _pendingRequests := ∅; requested := [] |}.

(** What [fetchTitle] hands back: a promise settled already, or the
    promise kept in [_pendingRequests] under a URL, whose request is
    under way. *)
Inductive Returned : Type :=
| Resolves (title : str)
| Awaits (url : str).

(** [text || other] *)
Definition orElse (title : option str) (fallbackTitle : str) : str :=
  match title with
  | Some t => if truthy t then t else fallbackTitle
  | None => fallbackTitle
  end.

(** The call the function body of a request makes before its [await]. *)
Definition request (w : World) (url : str) : Called (option str) :=
  if useElectron w then fetchUrlMetadata w url else httpGet w url.

(** The [try] block up to [finalTitle]: a value, or [None] for a throw,
    be it of the call or of the [await] of a rejected promise. *)
Definition tryTitle (w : World) (url fallbackTitle : str) : option str :=
  if useElectron w then
    match fetchUrlMetadata w url with
    | Returns (Fulfilled title) => Some (orElse title fallbackTitle)
    | Returns Rejected => None
    | Throws => None
    end
  else
    match httpGet w url with
    | Returns (Fulfilled html) =>
        let title :=
          match html with
          | Some h => if truthy h then _extractTitle h else None
          | None => None
          end in
        Some (orElse title fallbackTitle)
    | Returns Rejected => None
    | Throws => None
    end.

(** The call itself, up to the promise it returns.  The function body of
    a new request runs inside the call up to its first [await]: when the
    call it makes throws, [catch] and [finally] run at once, and only
    then is the promise, fulfilled already, stored in
    [_pendingRequests]. *)
Definition fetchTitle (w : World) (σ : Service) (url fallbackTitle : str)
    : Returned * Service :=
  if startsWith url (lit "file://") then (Resolves fallbackTitle, σ)
  else
    match _cache σ !! url with
    | Some title => (Resolves title, σ)
    | None =>
        match _pendingRequests σ !! url with
        | Some (InFlight _) => (Awaits url, σ)
        | Some (Done title) => (Resolves title, σ)
        | None =>
            match request w url with
            | Throws =>
                (Resolves fallbackTitle,
                 {| _cache := <[url := fallbackTitle]> (_cache σ);
                    _pendingRequests :=
                      <[url := Done fallbackTitle]>
                        (delete url (_pendingRequests σ));
                    requested := url :: requested σ |})
            | Returns _ =>
                (Awaits url,
                 {| _cache := _cache σ;
                    _pendingRequests :=
                      <[url := InFlight fallbackTitle]> (_pendingRequests σ);
                    requested := url :: requested σ |})
            end
        end
    end.

(** The rest of the function body of a promise whose request is under
    way, run when the request settles: [try], [catch] and [finally].
    [None] when no such promise is kept under [url]. *)
Definition settle (w : World) (σ : Service) (url : str)
    : option (Settled str * Service) :=
  match _pendingRequests σ !! url with
  | Some (InFlight fallbackTitle) =>
      let finalTitle :=
        match tryTitle w url fallbackTitle with
        | Some finalTitle => finalTitle
        | None => fallbackTitle
        end in
      Some (Fulfilled finalTitle,
            {| _cache := <[url := finalTitle]> (_cache σ);
               _pendingRequests := delete url (_pendingRequests σ);
               requested := requested σ |})
  | _ => None
  end.


Definition clearCache (σ : Service) : Service :=
  {| _cache := ∅;
     _pendingRequests := _pendingRequests σ;
     requested := requested σ |}.

End UrlMetadataService.

(** ** Notions the properties are stated with: the specification's own
    words, and a few shorthands *)
Module Spec.

(** The replacement the escaper is described by, one character at a
    time. *)
Definition escapeChar (c : ascii) : str :=
  if Ascii.eqb c "&" then lit "&amp;"
  else if Ascii.eqb c "<" then lit "&lt;"
  else if Ascii.eqb c ">" then lit "&gt;"
  else if Ascii.eqb c dquote then lit "&quot;"
  else [c].

(** One global replacement of a character by a text. *)
Definition substitute (c : ascii) (r : str) (s : str) : str :=
  flat_map (fun x => if Ascii.eqb x c then r else [x]) s.

(** What becomes of a segment: an anchor stays as it is, any other text
    goes through the plain-URL detector. *)
Definition renderPart (part : RenderLinksPipe.Part) : str :=
  if RenderLinksPipe.isAnchor part then RenderLinksPipe.text part
  else RenderLinksPipe.replaceUrls (RenderLinksPipe.text part).

(** A text with its letters folded, as the [i] flag compares them. *)
Definition foldCase (s : str) : str := map JsString.canonicalize s.

Definition urlPrefixes : list str :=
  [lit "http://"; lit "https://"; lit "file://"; lit "www."].

(** One of the four prefixes, in any mix of capitals and small letters. *)
Definition isUrlPrefix (prefix : str) : Prop :=
  exists q, In q urlPrefixes /\ foldCase prefix = foldCase q.

(** The end of the text, or a whitespace character next. *)
Definition atTokenEnd (rest : str) : Prop :=
  match rest with
  | [] => True
  | c :: _ => JsString.isWhiteSpace c = true
  end.

Definition nonSpaces (s : str) : Prop :=
  Forall (fun c => JsString.isWhiteSpace c = false) s.

(** A token of the plain-URL detector in front of [rest]: a prefix and
    1 to 2000 characters that are not whitespace, up to whitespace or the
    end of the text. *)
Definition urlToken (w rest : str) : Prop :=
  exists prefix body,
    w = prefix ++ body /\ isUrlPrefix prefix /\
    1 <= length body <= 2000 /\ nonSpaces body /\ atTokenEnd rest.

(** A markdown link read off the start of a text, as [title], [url]
    and what follows: an opening bracket, the characters up to the next
    closing bracket (one at least), an opening parenthesis, the
    characters up to the next closing parenthesis (one at least). *)
Definition readMarkdownLink (s : str) : option (str * str * str) :=
  match s with
  | c :: s1 =>
      if Ascii.eqb c "[" then
        let n1 := RegExp.runLength (fun x => negb (Ascii.eqb x "]")) s1 in
        match n1, drop n1 s1 with
        | S _, c1 :: c2 :: s2 =>
            if Ascii.eqb c1 "]" && Ascii.eqb c2 "(" then
              let n2 :=
                RegExp.runLength (fun x => negb (Ascii.eqb x ")")) s2 in
              match n2, drop n2 s2 with
              | S _, c3 :: s3 =>
                  if Ascii.eqb c3 ")"
                  then Some (take n1 s1, take n2 s2, s3)
                  else None
              | _, _ => None
              end
            else None
        | _, _ => None
        end
      else None
  | [] => None
  end.


(** A world without network: every request ends in an error. *)
Definition offline : UrlMetadataService.World :=
  {| UrlMetadataService.useElectron := false;
     UrlMetadataService.fetchUrlMetadata :=
       fun _ => UrlMetadataService.Returns UrlMetadataService.Rejected;
     UrlMetadataService.httpGet :=
       fun _ =>
         UrlMetadataService.Returns (UrlMetadataService.Fulfilled None) |}.

(** A world in which the call to the main process throws where it
    stands. *)
Definition throwing : UrlMetadataService.World :=
  {| UrlMetadataService.useElectron := true;
     UrlMetadataService.fetchUrlMetadata :=
       fun _ => UrlMetadataService.Throws;
     UrlMetadataService.httpGet :=
       fun _ =>
         UrlMetadataService.Returns (UrlMetadataService.Fulfilled None) |}.

(** Text of an anchor as the segmenter recognizes it: the tag name,
    attributes up to the first closing angle bracket, and a body up to
    the closing tag. *)
Definition isAnchorText (w : str) : Prop :=
  exists attrs body,
    w = lit "<a" ++ attrs ++ lit ">" ++ body ++ lit "</a>" /\
    JsString.includes attrs (lit ">") = false.


(** The punctuation that ends a sentence rather than a URL. *)
Definition isSentencePunctuation (c : ascii) : bool :=
  existsb (Ascii.eqb c) (lit ".,;!?").

(** A text without the run of such punctuation at its end. *)
Fixpoint stripTrailingPunctuation (s : str) : str :=
  match s with
  | [] => []
  | c :: t =>
      if forallb isSentencePunctuation (c :: t) then []
      else c :: stripTrailingPunctuation t
  end.

(** The prefixes the classifier accepts. *)
Definition acceptedPrefixes : list str :=
  [lit "http://"; lit "https://"; lit "file://"; lit "//"].

(** The characters HTML gives a meaning to, other than the ampersand:
    the two angle brackets, the double quote and the apostrophe. *)
Definition markupChars : str := [ "<"; ">"; dquote; "'" ]%char.

(** A character the escaper has no replacement for. *)
Definition plainChar (c : ascii) : bool :=
  negb (Ascii.eqb c "&" || Ascii.eqb c "<" || Ascii.eqb c ">"
        || Ascii.eqb c dquote).

(** How often a character occurs in a text. *)
Definition occurrences (c : ascii) (s : str) : nat :=
  count_occ ascii_dec s c.

(** An [href] that starts with one of the three schemes, in small
    letters. *)
Definition allowedScheme (href : str) : bool :=
  JsString.startsWith href (lit "http://")
  || JsString.startsWith href (lit "https://")
  || JsString.startsWith href (lit "file://").

Definition allWhiteSpace (s : str) : bool := forallb JsString.isWhiteSpace s.

(** What happens to the title service: a call of [fetchTitle], the
    settlement of the request a waiting promise was made for, a call of
    [clearCache]. *)
Inductive Event : Type :=
| Call (url fallbackTitle : str)
| Settles (url : str)
| Clear.

(** The state after one event.  Where no request is under way for the
    URL, nothing settles. *)
Definition step (w : UrlMetadataService.World)
    (σ : UrlMetadataService.Service) (e : Event)
    : UrlMetadataService.Service :=
  match e with
  | Call url fallbackTitle =>
      snd (UrlMetadataService.fetchTitle w σ url fallbackTitle)
  | Settles url =>
      match UrlMetadataService.settle w σ url with
      | Some (_, σ') => σ'
      | None => σ
      end
  | Clear => UrlMetadataService.clearCache σ
  end.

(** The state after a list of events, in their order. *)
Definition history (w : UrlMetadataService.World)
    (σ : UrlMetadataService.Service) (events : list Event)
    : UrlMetadataService.Service :=
  fold_left (step w) events σ.

Definition withoutClear (events : list Event) : bool :=
  forallb (fun e => match e with Clear => false | _ => true end) events.

(** How often the request was made for a URL. *)
Definition timesRequested (σ : UrlMetadataService.Service) (url : str)
    : nat :=
  count_occ (List.list_eq_dec ascii_dec) (UrlMetadataService.requested σ) url.

(** No URL is cached while its request is under way; no request was
    made for a [file://] URL; a request was made for every URL cached or
    kept in [_pendingRequests]; and a promise fulfilled inside its call is
    kept only for a URL whose request throws. *)
Definition sound (w : UrlMetadataService.World)
    (σ : UrlMetadataService.Service) : Prop :=
  (forall url fallbackTitle,
     UrlMetadataService._pendingRequests σ !! url
     = Some (UrlMetadataService.InFlight fallbackTitle) ->
     UrlMetadataService._cache σ !! url = None)
  /\ (forall url,
        In url (UrlMetadataService.requested σ) ->
        JsString.startsWith url (lit "file://") = false)
  /\ (forall url,
        is_Some (UrlMetadataService._cache σ !! url)
        \/ is_Some (UrlMetadataService._pendingRequests σ !! url) ->
        In url (UrlMetadataService.requested σ))
  /\ (forall url title,
        UrlMetadataService._pendingRequests σ !! url
        = Some (UrlMetadataService.Done title) ->
        UrlMetadataService.request w url = UrlMetadataService.Throws).

(** No request was made twice, and every URL a request was made for is
    cached or kept in [_pendingRequests]. *)
Definition requestedOnce (σ : UrlMetadataService.Service) : Prop :=
  NoDup (UrlMetadataService.requested σ)
  /\ (forall url,
        In url (UrlMetadataService.requested σ) ->
        is_Some (UrlMetadataService._cache σ !! url)
        \/ is_Some (UrlMetadataService._pendingRequests σ !! url)).

(** A text that holds a token of the plain-URL detector somewhere. *)
Definition holdsUrlToken (text : str) : Prop :=
  exists pre w rest, text = pre ++ w ++ rest /\ urlToken w rest.

(** A text that holds a markdown link somewhere: a title without closing
    bracket between brackets, and a target without closing parenthesis
    between parentheses, neither of them empty. *)
Definition holdsMarkdownLink (text : str) : Prop :=
  exists pre title url rest,
    text = pre ++ lit "[" ++ title ++ lit "](" ++ url ++ lit ")" ++ rest /\
    title <> [] /\ JsString.includes title (lit "]") = false /\
    url <> [] /\ JsString.includes url (lit ")") = false.

End Spec.

Import JsString RegExp Spec.

(** Tactics for the comparison of folded prefixes. *)
Ltac fold_literal H :=
  match type of H with
  | _ = foldCase ?q =>
      let v := eval vm_compute in (foldCase q) in
      change (foldCase q) with v in H
  end.

Ltac exact_length H :=
  repeat match type of H with
  | foldCase ?a = _ =>
      is_var a; destruct a; cbn [foldCase map] in H; try discriminate H
  | map _ ?a = _ =>
      is_var a; destruct a; cbn [foldCase map] in H; try discriminate H
  | _ :: _ = _ :: _ =>
      let H1 := fresh "Hc" in
      injection H as H1 H
  end.

(** Tactics for the evaluation of the detector on a folded prefix. *)
Ltac prefix_chars H a :=
  cbn [foldCase map lit list_ascii_of_string] in H;
  repeat (destruct a as [|? a]; [discriminate H|];
          cbn [map] in H; injection H as ? H);
  destruct a; [clear H|discriminate H].

Ltac eval_same_char :=
  cbn [same_char];
  repeat match goal with
  | H : canonicalize ?c = canonicalize _ |- context [canonicalize ?c] =>
      rewrite H
  end;
  repeat match goal with
  | |- context [Ascii.eqb (canonicalize (Ascii ?a ?b ?c ?d ?e ?f ?g ?h))
                          (canonicalize ?y)] =>
      let v := eval vm_compute in
        (Ascii.eqb (canonicalize (Ascii a b c d e f g h)) (canonicalize y)) in
      change (Ascii.eqb (canonicalize (Ascii a b c d e f g h))
                        (canonicalize y)) with v
  end.

(** * The matcher *)
Section MatcherFacts.
Variable ic : bool.

Lemma repeat_atom_unfold {R} a g min max caps (k : MatchState -> option R)
    p s :
  repeat_atom ic a g min max caps k p s =
  let stop :=
    match min with
    | 0 => k {| prev := p; rest := s; captures := caps |}
    | S _ => None
    end in
  let more :=
    match s with
    | c :: t =>
        if atom_matches ic a c && may_repeat max
        then repeat_atom ic a g (Nat.pred min) (one_less max) caps k
               (Some c) t
        else None
    | [] => None
    end in
  if g then match more with Some x => Some x | None => stop end
  else match stop with Some x => Some x | None => more end.
Proof. destruct s; reflexivity. Qed.

Lemma option_match_id {T} (o : option T) :
  match o with Some x => Some x | None => None end = o.
Proof. by destruct o. Qed.

(** A quantified atom hands to its continuation a position further on in
    the same input. *)
Lemma repeat_atom_ends {R} a g caps (k : MatchState -> option R) s :
  forall min max p x,
    repeat_atom ic a g min max caps k p s = Some x ->
    exists st', k st' = Some x /\ rest st' `suffix_of` s.
Proof.
  induction s as [|c t IH]; intros min max p x H;
    rewrite repeat_atom_unfold in H; cbn zeta in H.
  - rewrite ?option_match_id in H.
    destruct g, min; try discriminate;
      (eexists; split; [exact H | by exists []]).
  - destruct (atom_matches ic a c && may_repeat max) eqn:E.
    + destruct g.
      * destruct (repeat_atom ic a true (Nat.pred min) (one_less max) caps k
                    (Some c) t) eqn:E1.
        -- injection H as <-. apply IH in E1 as (st' & Hk & Hs).
           exists st'. split; [exact Hk | by apply suffix_cons_r].
        -- destruct min; try discriminate.
           eexists; split; [exact H | by exists []].
      * destruct min.
        -- destruct (k _) eqn:E0 in H.
           ++ injection H as <-. eexists; split; [exact E0 | by exists []].
           ++ apply IH in H as (st' & Hk & Hs).
              exists st'. split; [exact Hk | by apply suffix_cons_r].
        -- apply IH in H as (st' & Hk & Hs).
           exists st'. split; [exact Hk | by apply suffix_cons_r].
    + rewrite ?option_match_id in H.
      destruct g, min; try discriminate;
        (eexists; split; [exact H | by exists []]).
Qed.

(** So does every pattern. *)
Lemma run_ends r :
  forall {R} st (k : MatchState -> option R) x,
    run ic r st k = Some x ->
    exists st', k st' = Some x /\ rest st' `suffix_of` rest st.
Proof.
  induction r as [|a|r1 IH1 r2 IH2|r1 IH1 r2 IH2|g min max a|n r IH|r IH| | |];
    intros R st k x H; cbn [run] in H.
  - eexists; split; [exact H | by exists []].
  - destruct (rest st) as [|c t] eqn:E; try discriminate.
    destruct (atom_matches ic a c); try discriminate.
    eexists; split; [exact H | cbn; by apply suffix_cons_r].
  - apply IH1 in H as (st1 & H & Hs1).
    apply IH2 in H as (st2 & H & Hs2).
    exists st2. split; [exact H | by etrans].
  - destruct (run ic r1 st k) eqn:E.
    + injection H as <-. by apply IH1 in E.
    + by apply IH2 in H.
  - by apply repeat_atom_ends in H.
  - apply IH in H as (st1 & H & Hs). eexists; split; [exact H | exact Hs].
  - destruct (run ic r st _); try discriminate.
    eexists; split; [exact H | by exists []].
  - destruct (prev st); try discriminate.
    eexists; split; [exact H | by exists []].
  - destruct (rest st) eqn:E; try discriminate.
    eexists; split; [exact H | rewrite E; by exists []].
  - destruct (xorb _ _); try discriminate.
    eexists; split; [exact H | by exists []].
Qed.
End MatcherFacts.

(** Patterns of a non-empty shape move the position. *)
Section Progress.
Variable ic : bool.

Lemma repeat_atom_progress {R} a g caps (k : MatchState -> option R) s :
  forall min max p x,
    min <> 0 ->
    repeat_atom ic a g min max caps k p s = Some x ->
    exists st', k st' = Some x /\ length (rest st') < length s.
Proof.
  intros min max p x Hmin H. rewrite repeat_atom_unfold in H.
  destruct min as [|min]; [done|]. cbn zeta in H.
  rewrite ?option_match_id in H.
  assert (H' : match s with
               | [] => None
               | c :: t =>
                   if atom_matches ic a c && may_repeat max
                   then repeat_atom ic a g (Nat.pred (S min))
                          (one_less max) caps k (Some c) t
                   else None
               end = Some x) by (destruct g; exact H).
  destruct s as [|c t]; [discriminate|].
  destruct (_ && _); [|discriminate].
  apply repeat_atom_ends in H' as (st' & Hk & Hs).
  exists st'. split; [exact Hk|]. apply suffix_length in Hs. cbn. lia.
Qed.

Lemma run_progress r :
  nonempty r = true ->
  forall {R} st (k : MatchState -> option R) x,
    run ic r st k = Some x ->
    exists st', k st' = Some x /\ length (rest st') < length (rest st).
Proof.
  induction r as [|a|r1 IH1 r2 IH2|r1 IH1 r2 IH2|g min max a|n r IH|r IH| | |];
    cbn [nonempty]; intros Hne R st k x H; try discriminate;
    cbn [run] in H.
  - destruct (rest st) as [|c t] eqn:E; try discriminate.
    destruct (atom_matches ic a c); try discriminate.
    eexists; split; [exact H | cbn; lia].
  - destruct (nonempty r1) eqn:E1.
    + apply IH1 in H as (st1 & H & Hl); [|done].
      apply run_ends in H as (st2 & H & Hs). apply suffix_length in Hs.
      exists st2. split; [exact H | lia].
    + apply run_ends in H as (st1 & H & Hs). apply suffix_length in Hs.
      apply IH2 in H as (st2 & H & Hl); [|done].
      exists st2. split; [exact H | lia].
  - apply andb_true_iff in Hne as [Hn1 Hn2].
    destruct (run ic r1 st k) eqn:E.
    + injection H as <-. by apply IH1 in E.
    + by apply IH2 in H.
  - apply repeat_atom_progress in H; [done|].
    by destruct min.
  - apply IH in H as (st1 & H & Hl); [|done].
    eexists; split; [exact H | exact Hl].
Qed.
End Progress.

(** The matcher is sound for what the patterns stand for. *)
Section Soundness.
Variable ic : bool.

Lemma prev_after_cons p c w : prev_after p (c :: w) = prev_after (Some c) w.
Proof.
  unfold prev_after. rewrite last_cons. by destruct (last w).
Qed.

Lemma repeat_atom_sound {R} a g caps (k : MatchState -> option R) s :
  forall min max p x,
    repeat_atom ic a g min max caps k p s = Some x ->
    exists w st',
      s = w ++ rest st' /\ prev st' = prev_after p w /\
      min <= length w /\ within max (length w) /\
      Forall (fun c => atom_matches ic a c = true) w /\
      k st' = Some x.
Proof.
  assert (Hstop : forall min max p s0 x,
    match min with
    | 0 => k {| prev := p; rest := s0; captures := caps |}
    | S _ => None
    end = Some x ->
    exists w st',
      s0 = w ++ rest st' /\ prev st' = prev_after p w /\
      min <= length w /\ within max (length w) /\
      Forall (fun c => atom_matches ic a c = true) w /\
      k st' = Some x).
  { intros [|min] max p s0 x H; [|discriminate].
    exists [], {| prev := p; rest := s0; captures := caps |}.
    repeat split; try done. destruct max; cbn; lia. }
  induction s as [|c t IH]; intros min max p x H;
    rewrite repeat_atom_unfold in H; cbn zeta in H.
  - rewrite ?option_match_id in H.
    apply (Hstop min max p []). by destruct g.
  - destruct (atom_matches ic a c && may_repeat max) eqn:E.
    + assert (Hmore : forall y,
        repeat_atom ic a g (Nat.pred min) (one_less max) caps k (Some c) t
          = Some y ->
        exists w st',
          c :: t = w ++ rest st' /\ prev st' = prev_after p w /\
          min <= length w /\ within max (length w) /\
          Forall (fun c => atom_matches ic a c = true) w /\
          k st' = Some y).
      { intros y Hy. apply IH in Hy as (w & st' & -> & Hp & Hmin & Hmax & Hf & Hk).
        apply andb_true_iff in E as [Ea Em].
        exists (c :: w), st'. repeat split; try done.
        - by rewrite prev_after_cons.
        - cbn. lia.
        - destruct max as [[|m]|]; cbn in *; try done. lia.
        - by constructor. }
      destruct g.
      * destruct (repeat_atom ic a true _ _ caps k (Some c) t) eqn:E1.
        -- injection H as <-. by apply Hmore.
        -- by apply (Hstop min max p (c :: t)).
      * destruct (match min with 0 => _ | S _ => None end) eqn:E0.
        -- injection H as <-. by apply (Hstop min max p (c :: t)).
        -- by apply Hmore.
    + rewrite ?option_match_id in H.
      apply (Hstop min max p (c :: t)). by destruct g.
Qed.

Lemma run_sound r :
  forall {R} st (k : MatchState -> option R) x,
    run ic r st k = Some x ->
    exists w st',
      rest st = w ++ rest st' /\ prev st' = prev_after (prev st) w /\
      denotes ic r (prev st) w (rest st') /\ k st' = Some x.
Proof.
  induction r as [|a|r1 IH1 r2 IH2|r1 IH1 r2 IH2|g min max a|n r IH|r IH| | |];
    intros R st k x H; cbn [run] in H; cbn [denotes].
  - by exists [], st.
  - destruct (rest st) as [|c t] eqn:E; try discriminate.
    destruct (atom_matches ic a c) eqn:Ea; try discriminate.
    eexists [c], _. repeat split; [| |by exists c|exact H]; done.
  - apply IH1 in H as (w1 & st1 & Hs1 & Hp1 & Hd1 & H).
    apply IH2 in H as (w2 & st2 & Hs2 & Hp2 & Hd2 & H).
    exists (w1 ++ w2), st2. repeat split.
    + by rewrite Hs1, Hs2, app_assoc.
    + rewrite Hp2, Hp1. unfold prev_after. rewrite last_app.
      by destruct (last w2).
    + exists w1, w2. rewrite <- Hs2, <- Hp1. done.
    + exact H.
  - destruct (run ic r1 st k) eqn:E.
    + injection H as <-.
      apply IH1 in E as (w & st' & ? & ? & ? & ?). exists w, st'. auto.
    + apply IH2 in H as (w & st' & ? & ? & ? & ?). exists w, st'. auto.
  - apply repeat_atom_sound in H
      as (w & st' & Hs & Hp & Hmin & Hmax & Hf & Hk).
    by exists w, st'.
  - apply IH in H as (w & st1 & Hs & Hp & Hd & H).
    eexists w, _. split; [|split; [|split; [|exact H]]]; done.
  - destruct (run ic r st (fun _ => Some tt)) eqn:E; try discriminate.
    apply IH in E as (w1 & st1 & Hs & _ & Hd & _).
    exists [], st. repeat split; try done. by exists w1, (rest st1).
  - destruct (prev st) eqn:E; try discriminate. by exists [], st.
  - destruct (rest st) eqn:E; try discriminate.
    exists [], st. rewrite E. done.
  - destruct (xorb _ _) eqn:E; try discriminate. by exists [], st.
Qed.
End Soundness.

(** A literal is matched by comparing it with the start of the input. *)
Section Literal.
Variable ic : bool.

Lemma run_Lit l : forall {R} st (k : MatchState -> option R),
  run ic (Lit l) st k =
  if starts ic (rest st) l
  then k {| prev := prev_after (prev st) (take (length l) (rest st));
            rest := drop (length l) (rest st);
            captures := captures st |}
  else None.
Proof.
  induction l as [|x l IH]; intros R [p s caps] k.
  - reflexivity.
  - destruct l as [|y l].
    + cbn [Lit run rest prev captures starts length].
      destruct s as [|c t]; [reflexivity|].
      rewrite andb_true_r. reflexivity.
    + change (Lit (x :: y :: l)) with (Seq (A (Chr x)) (Lit (y :: l))).
      cbn [run rest prev captures].
      destruct s as [|c t]; [reflexivity|].
      cbn [atom_matches starts].
      destruct (same_char ic c x); [|reflexivity].
      rewrite IH. cbn [rest prev captures andb].
      change (length (x :: y :: l)) with (S (length (y :: l))).
      cbn [take drop firstn skipn]. by rewrite prev_after_cons.
Qed.
End Literal.

Lemma starts_startsWith s l : starts false s l = startsWith s l.
Proof.
  revert s. induction l as [|x l IH]; intros s; [reflexivity|].
  destruct s as [|c s]; [reflexivity|]. cbn. by rewrite IH.
Qed.

Lemma startsWith_app_split a b : forall s,
  startsWith s (a ++ b)
  = startsWith s a && startsWith (drop (length a) s) b.
Proof.
  induction a as [|x a IH]; intros s; [reflexivity|].
  destruct s as [|c s]; [reflexivity|].
  cbn [app startsWith length drop skipn]. by rewrite IH, andb_assoc.
Qed.

(** A greedy quantifier in front of something that cannot start with the
    quantified character takes the whole run of such characters, or
    fails. *)
Section Greedy.
Variable ic : bool.

Lemma repeat_greedy_run {R} a caps (k : MatchState -> option R) :
  (forall p c t, atom_matches ic a c = true ->
     k {| prev := p; rest := c :: t; captures := caps |} = None) ->
  forall s min max p,
    repeat_atom ic a true min max caps k p s =
    let n := runLength (atom_matches ic a) s in
    if (min <=? n) && allows max n
    then k {| prev := prev_after p (take n s); rest := drop n s;
              captures := caps |}
    else None.
Proof.
  intros Hk. induction s as [|c t IH]; intros min max p;
    rewrite repeat_atom_unfold; cbn zeta.
  - cbn. destruct min, max; reflexivity.
  - cbn [runLength]. destruct (atom_matches ic a c) eqn:Ea.
    + cbn [andb]. destruct (may_repeat max) eqn:Em.
      * rewrite IH. cbn zeta.
        replace (Nat.pred min <=? runLength (atom_matches ic a) t)
          with (min <=? S (runLength (atom_matches ic a) t))
          by (destruct min; reflexivity).
        replace (allows (one_less max) (runLength (atom_matches ic a) t))
          with (allows max (S (runLength (atom_matches ic a) t)))
          by (destruct max as [[|m]|]; try reflexivity; discriminate).
        cbn [take drop]. rewrite prev_after_cons. cbn zeta.
        destruct ((min <=? S (runLength (atom_matches ic a) t))
                  && allows max (S (runLength (atom_matches ic a) t))).
        -- destruct (k _); [reflexivity|].
           destruct min; [by apply Hk | reflexivity].
        -- destruct min; [by apply Hk | reflexivity].
      * destruct max as [[|m]|]; try discriminate. cbn [allows].
        rewrite andb_false_r. destruct min; [by apply Hk | reflexivity].
    + cbn [andb take drop]. unfold prev_after. cbn.
      destruct min, max; reflexivity.
Qed.
End Greedy.

Lemma match_here_suffix re p s e :
  match_here re p s = Some e -> rest e `suffix_of` s.
Proof.
  unfold match_here. intros H.
  apply run_ends in H as (st' & H & Hs). by injection H as <-.
Qed.

Lemma suffix_take_length (s t : str) :
  t `suffix_of` s -> take (length s - length t) s ++ t = s.
Proof.
  intros [pre ->]. rewrite length_app.
  replace (length pre + length t - length t) with (length pre) by lia.
  by rewrite take_app_length.
Qed.

(** What a search returns: the skipped text, the match and the rest make
    up the input, and the match was found where the skipped text ends. *)
Lemma scan_spec re : forall s p i m,
  scan re p s i = Some m ->
  exists pre,
    s = pre ++ matched m ++ rest (after m) /\
    index m = i + length pre /\
    match_here re (last (option_list p ++ pre)) (matched m ++ rest (after m))
      = Some (after m) /\
    groups m = captures (after m).
Proof.
  assert (Hhere : forall s p i e,
    match_here re p s = Some e ->
    let m := {| index := i; matched := take (length s - length (rest e)) s;
                groups := captures e; after := e |} in
    exists pre,
      s = pre ++ matched m ++ rest (after m) /\
      index m = i + length pre /\
      match_here re (last (option_list p ++ pre))
        (matched m ++ rest (after m)) = Some (after m) /\
      groups m = captures (after m)).
  { intros s p i e E m. exists []. subst m. cbn [matched after index groups].
    rewrite (suffix_take_length s (rest e)) by by eapply match_here_suffix.
    rewrite app_nil_r. repeat split; cbn; try lia.
    rewrite <- E. by destruct p. }
  induction s as [|c t IH]; intros p i m H; cbn [scan] in H.
  - destruct (match_here re p []) as [e|] eqn:E; try discriminate.
    injection H as <-. exact (Hhere [] p i e E).
  - destruct (match_here re p (c :: t)) as [e|] eqn:E.
    + injection H as <-. exact (Hhere (c :: t) p i e E).
    + apply IH in H as (pre & Hs & Hi & Hm & Hg).
      exists (c :: pre). repeat split.
      * cbn. by rewrite <- Hs.
      * cbn. lia.
      * rewrite <- Hm. f_equal. destruct p; cbn; by destruct pre.
      * exact Hg.
Qed.

(** Every match found is a text the pattern stands for. *)
Lemma scan_denotes re s p i m :
  scan re p s i = Some m ->
  exists q,
    denotes (ignoreCase re) (source re) q (matched m) (rest (after m)).
Proof.
  intros H. apply scan_spec in H as (pre & _ & _ & Hm & _).
  unfold match_here in Hm.
  apply run_sound in Hm as (w & st' & Hs & _ & Hd & Hk).
  injection Hk as ->. cbn [rest prev] in *.
  apply app_inv_tail in Hs as ->. eauto.
Qed.

(** A literal stands for itself, character by character. *)
Lemma denotes_Lit ic l : forall p w rest,
  denotes ic (Lit l) p w rest ->
  Forall2 (fun c x => same_char ic c x = true) w l.
Proof.
  induction l as [|x l IH]; intros p w rest H.
  - cbn in H. subst. constructor.
  - destruct l as [|y l].
    + cbn in H. destruct H as (c & -> & Hc). by repeat constructor.
    + change (Lit (x :: y :: l)) with (Seq (A (Chr x)) (Lit (y :: l))) in H.
      cbn [denotes] in H.
      destruct H as (w1 & w2 & -> & (c & -> & Hc) & H2).
      apply IH in H2. by constructor.
Qed.

(** * Replacement of one character *)
Import RenderLinksPipe.

Lemma substitute_app c r s t :
  substitute c r (s ++ t) = substitute c r s ++ substitute c r t.
Proof. apply flat_map_app. Qed.

Lemma scan_every c : forall s p i,
  scan (every c) p s i =
  match s with
  | [] => None
  | x :: t =>
      if Ascii.eqb x c
      then Some {| index := i; matched := [x]; groups := [];
                   after := {| prev := Some x; rest := t; captures := [] |} |}
      else scan (every c) (Some x) t (S i)
  end.
Proof.
  intros [|x t] p i; [reflexivity|].
  cbn [scan]. unfold match_here. cbn.
  destruct (Ascii.eqb x c); [|reflexivity].
  cbn. by replace (S (length t) - length t) with 1 by lia.
Qed.

Lemma scan_every_none c r : forall s p i,
  scan (every c) p s i = None -> substitute c r s = s.
Proof.
  induction s as [|x t IH]; intros p i H; [reflexivity|].
  rewrite scan_every in H. unfold substitute. cbn [flat_map].
  destruct (Ascii.eqb x c); [discriminate|].
  cbn. f_equal. by eapply IH.
Qed.

Lemma scan_every_some c : forall s p i m,
  scan (every c) p s i = Some m ->
  exists pre t,
    s = pre ++ c :: t /\ (forall r, substitute c r pre = pre) /\
    index m = i + length pre /\ matched m = [c] /\
    after m = {| prev := Some c; rest := t; captures := [] |}.
Proof.
  induction s as [|x t IH]; intros p i m H; rewrite scan_every in H;
    [discriminate|].
  destruct (Ascii.eqb_spec x c) as [->|Hne].
  - injection H as <-. exists [], t. cbn. repeat split; lia.
  - apply IH in H as (pre & t' & -> & Hpre & Hi & Hm & Ha).
    exists (x :: pre), t'. repeat split; try done.
    + intros r. unfold substitute. cbn [flat_map].
      destruct (Ascii.eqb_spec x c); [done|]. cbn. f_equal. apply Hpre.
    + cbn. lia.
Qed.

Lemma replace_loop_every c r : forall fuel s p,
  length s < fuel ->
  replace_loop fuel (every c) (fun _ => r) p s = substitute c r s.
Proof.
  induction fuel as [|fuel IH]; intros s p Hlen; [lia|].
  cbn [replace_loop].
  destruct (scan (every c) p s 0) as [m|] eqn:E.
  - apply scan_every_some in E as (pre & t & -> & Hpre & Hi & Hm & Ha).
    rewrite Hi, Hm, Ha. cbn [rest prev Nat.add].
    rewrite take_app_length, substitute_app, Hpre. f_equal.
    unfold substitute at 1. cbn [flat_map]. rewrite Ascii.eqb_refl.
    f_equal. apply IH. rewrite length_app in Hlen. cbn in Hlen. lia.
  - symmetry. by eapply scan_every_none.
Qed.

Lemma replace_every c r s :
  replace (every c) (fun _ => r) s = substitute c r s.
Proof. unfold replace. cbn [global every]. apply replace_loop_every. lia. Qed.

Lemma escapeChar_chain c :
  substitute dquote (lit "&quot;")
    (substitute ">" (lit "&gt;")
      (substitute "<" (lit "&lt;")
        (substitute "&" (lit "&amp;") [c]))) = Spec.escapeChar c.
Proof.
  unfold Spec.escapeChar, substitute. cbn [flat_map].
  destruct (Ascii.eqb_spec c "&") as [->|H1]; [reflexivity|].
  cbn [flat_map app].
  destruct (Ascii.eqb_spec c "<") as [->|H2]; [reflexivity|].
  cbn [flat_map app].
  destruct (Ascii.eqb_spec c ">") as [->|H3]; [reflexivity|].
  cbn [flat_map app].
  destruct (Ascii.eqb_spec c dquote) as [->|H4]; reflexivity.
Qed.

(** The four replacements in a row are one pass over the text. *)
Lemma escapeHtml_flat_map text :
  _escapeHtml text = flat_map Spec.escapeChar text.
Proof.
  unfold _escapeHtml. rewrite !replace_every.
  induction text as [|c t IH]; [reflexivity|].
  change (c :: t) with ([c] ++ t).
  rewrite !substitute_app, IH, escapeChar_chain. reflexivity.
Qed.

(** * The loops over the matches *)

Lemma scan_progress re : nonempty (source re) = true ->
  forall s p i m, scan re p s i = Some m ->
    matched m <> [] /\ length (rest (after m)) < length s.
Proof.
  intros Hne s p i m H.
  apply scan_spec in H as (pre & Hs & _ & Hm & _).
  unfold match_here in Hm.
  apply (run_progress _ _ Hne) in Hm as (st' & Hk & Hl).
  injection Hk as ->. cbn [rest] in Hl.
  split.
  - intros E. rewrite E in Hl. cbn in Hl. lia.
  - rewrite Hs, !length_app in *. lia.
Qed.

(** More fuel than the text has characters is always enough. *)
Lemma replace_loop_fuel re f : forall n1 n2 s p,
  length s < n1 -> length s < n2 ->
  replace_loop n1 re f p s = replace_loop n2 re f p s.
Proof.
  induction n1 as [|n1 IH]; intros n2 s p H1 H2; [lia|].
  destruct n2 as [|n2]; [lia|]. cbn [replace_loop].
  destruct (scan re p s 0) as [m|] eqn:E; [|reflexivity].
  apply scan_spec in E as (pre & Hs & _ & _ & _).
  assert (Hl : length s = length pre + length (matched m)
                          + length (rest (after m)))
    by (rewrite Hs at 1; rewrite !length_app; lia).
  do 2 f_equal.
  destruct (matched m) as [|c0 t0] eqn:Em.
  - destruct (rest (after m)) as [|c t] eqn:Er; [reflexivity|].
    f_equal. apply IH; cbn in Hl; lia.
  - apply IH; cbn in Hl; lia.
Qed.

(** * The segments of a text *)

Lemma anchorRegex_nonempty : nonempty (source anchorRegex) = true.
Proof. reflexivity. Qed.

Lemma denotes_Lit_exact l p w rest :
  denotes false (Lit l) p w rest -> w = l.
Proof.
  intros H. apply denotes_Lit in H.
  induction H as [|c x w l Hc _ IH]; [reflexivity|].
  cbn in Hc. apply Ascii.eqb_eq in Hc. by subst.
Qed.

Lemma run_lacks s c :
  Forall (fun x => atom_matches false (NoneOf [c]) x = true) s ->
  includes s [c] = false.
Proof.
  induction 1 as [|x s Hx _ IH]; [reflexivity|].
  cbn [includes startsWith]. rewrite IH, orb_false_r, andb_true_r.
  cbn in Hx. rewrite orb_false_r in Hx. by apply negb_true_iff.
Qed.

(** What the anchor pattern matches is the text of an anchor. *)
Lemma anchorRegex_denotes p w rest :
  denotes false (source anchorRegex) p w rest -> isAnchorText w.
Proof.
  cbn [source anchorRegex]. cbn [denotes Star LazyStar].
  intros (w1 & w2 & -> & H1 & w3 & w4 & -> & [-> _] & w5 & w6 & -> &
          (_ & _ & Hattrs) & w7 & w8 & -> & (c & -> & Hc) &
          w9 & w10 & -> & _ & H10).
  apply denotes_Lit_exact in H1 as ->, H10 as ->.
  cbn in Hc. apply Ascii.eqb_eq in Hc as ->.
  exists w5, w9. split; [reflexivity|]. by apply run_lacks.
Qed.

(** The loop over the anchors ends; its parts make up the text, none of
    them is empty, and the parts marked as anchors are anchors. *)
Lemma anchorParts_partition : forall fuel s p,
  length s < fuel ->
  exists parts,
    anchorParts fuel p s = Some parts /\
    concat (map text parts) = s /\
    Forall (fun part => text part <> []) parts /\
    Forall (fun part => isAnchor part = true -> isAnchorText (text part))
      parts.
Proof.
  induction fuel as [|fuel IH]; intros s p Hlen; [lia|].
  cbn [anchorParts].
  destruct (scan anchorRegex p s 0) as [m|] eqn:E.
  - destruct (scan_progress _ anchorRegex_nonempty _ _ _ _ E) as [Hne Hl].
    destruct (scan_denotes _ _ _ _ _ E) as [q Hd].
    apply anchorRegex_denotes in Hd.
    apply scan_spec in E as (pre & Hs & Hi & _ & _).
    destruct (IH (rest (after m)) (prev (after m)))
      as (parts & -> & Hc & Hf & Ha); [lia|].
    eexists; split; [reflexivity|].
    cbn [Nat.add] in Hi. rewrite Hi.
    assert (Hpre : take (length pre) s = pre)
      by (rewrite Hs; apply take_app_length).
    rewrite Hpre. repeat split.
    + rewrite map_app, concat_app. cbn [map concat text]. rewrite Hc.
      rewrite Hs at 1. f_equal.
      destruct pre; cbn; [reflexivity | by rewrite app_nil_r].
    + apply Forall_app. split; [|by constructor].
      destruct pre; cbn; [constructor|]. by repeat constructor.
    + apply Forall_app. split; [|by constructor].
      destruct pre; cbn; [constructor|]. by repeat constructor.
  - destruct s as [|c t]; cbn.
    + by eexists; repeat split.
    + eexists; repeat split; [cbn; by rewrite app_nil_r| |];
        by repeat constructor.
Qed.

Lemma renderParts_map : forall parts σ,
  fst (renderParts σ parts) = map renderPart parts.
Proof.
  induction parts as [|part more IH]; intros σ; [reflexivity|].
  cbn [renderParts map]. unfold renderPart at 1.
  destruct (isAnchor part).
  - specialize (IH σ). destruct (renderParts σ more). cbn in *. by f_equal.
  - specialize (IH (set_url 0 (set_url 0 σ))).
    destruct (renderParts (set_url 0 (set_url 0 σ)) more). cbn in *.
    by f_equal.
Qed.

(** * The plain-URL detector *)

Lemma same_char_fold w l :
  Forall2 (fun c x => same_char true c x = true) w l ->
  foldCase w = foldCase l.
Proof.
  induction 1 as [|c x w l Hc _ IH]; [reflexivity|].
  cbn. f_equal; [|exact IH]. by apply Ascii.eqb_eq.
Qed.

Lemma denotes_Lit_fold l p w rest :
  denotes true (Lit l) p w rest -> foldCase w = foldCase l.
Proof. intros H. eapply same_char_fold, denotes_Lit, H. Qed.

Lemma foldCase_app a b : foldCase (a ++ b) = foldCase a ++ foldCase b.
Proof. apply map_app. Qed.

(** What follows one of the prefixes in the pattern. *)
Lemma denotes_url_tail p w rest :
  denotes true
    (Between 1 2000 NonSpace ~> before_space_or_end)%re p w rest ->
  1 <= length w <= 2000 /\ nonSpaces w /\ atTokenEnd rest.
Proof.
  cbn [denotes Between before_space_or_end].
  intros (w1 & w2 & -> & (Hmin & Hmax & Hf) & -> & w3 & rest1 & -> & H).
  rewrite app_nil_r. cbn in Hmax. repeat split; try lia.
  - eapply Forall_impl; [exact Hf|]. cbn. intros c Hc.
    by apply negb_true_iff.
  - destruct H as [(c & -> & Hc)|[-> ->]]; [exact Hc | exact I].
Qed.

(** Every match of the detector is a token. *)
Lemma URL_REGEX_denotes p w rest :
  denotes true (source URL_REGEX) p w rest -> urlToken w rest.
Proof.
  cbn [source URL_REGEX]. cbn [denotes].
  intros [(w1 & w2 & -> & Hscheme & w3 & w4 & -> & Hsep & Htail)
         |(w1 & w2 & -> & Hwww & Htail)].
  - apply denotes_Lit_fold in Hsep. apply denotes_url_tail in Htail.
    destruct Htail as (Hlen & Hns & Hend).
    exists (w1 ++ w3), w4. rewrite app_assoc.
    repeat split; try done; try lia.
    destruct Hscheme as [(a & b & -> & Ha & _ & Hb1 & Hb)|Hfile].
    + apply denotes_Lit_fold in Ha. cbn in Hb1.
      destruct b as [|c [|? ?]]; [| |cbn in Hb1; lia].
      * exists (lit "http://"). split; [cbn; auto|].
        rewrite app_nil_r, foldCase_app, Ha, Hsep. reflexivity.
      * exists (lit "https://"). split; [cbn; auto|].
        apply Forall_inv in Hb. cbn in Hb. apply Ascii.eqb_eq in Hb.
        rewrite !foldCase_app, Ha, Hsep. cbn. rewrite Hb. reflexivity.
    + apply denotes_Lit_fold in Hfile.
      exists (lit "file://"). split; [cbn; auto|].
      rewrite foldCase_app, Hfile, Hsep. reflexivity.
  - apply denotes_Lit_fold in Hwww. apply denotes_url_tail in Htail.
    destruct Htail as (Hlen & Hns & Hend).
    exists w1, w2. repeat split; try done; try lia.
    exists (lit "www."). split; [cbn; auto|]. exact Hwww.
Qed.

Lemma match_here_URL_token p s e :
  match_here URL_REGEX p s = Some e ->
  exists w, s = w ++ rest e /\ urlToken w (rest e).
Proof.
  unfold match_here. intros H.
  apply run_sound in H as (w & st' & Hs & _ & Hd & Hk).
  injection Hk as ->. cbn [rest prev] in *.
  exists w. split; [exact Hs|]. by eapply URL_REGEX_denotes.
Qed.

(** A text starts with at most one of the prefixes. *)
Lemma url_prefix_unique a b x y :
  isUrlPrefix a -> isUrlPrefix b -> a ++ x = b ++ y -> a = b.
Proof.
  intros (q & Hq & Ha) (q' & Hq' & Hb) E. cbn in Hq, Hq'.
  destruct Hq as [<-|[<-|[<-|[<-|[]]]]];
    destruct Hq' as [<-|[<-|[<-|[<-|[]]]]];
    fold_literal Ha; fold_literal Hb;
    exact_length Ha; exact_length Hb;
    cbn [app] in E; exact_length E; subst; congruence.
Qed.

Lemma nonSpaces_app a b : nonSpaces (a ++ b) <-> nonSpaces a /\ nonSpaces b.
Proof. apply Forall_app. Qed.

(** No match starts at a prefix that more than 2000 characters other than
    whitespace follow. *)
Lemma URL_REGEX_long_run p prefix run rest :
  isUrlPrefix prefix -> nonSpaces run -> 2000 < length run ->
  match_here URL_REGEX p (prefix ++ run ++ rest) = None.
Proof.
  intros Hp Hrun Hlen.
  destruct (match_here URL_REGEX p (prefix ++ run ++ rest)) as [e|] eqn:E;
    [exfalso|reflexivity].
  apply match_here_URL_token in E
    as (w & Hs & prefix' & body & -> & Hp' & Hb & Hns & Hend).
  rewrite <- app_assoc in Hs.
  pose proof (url_prefix_unique _ _ _ _ Hp Hp' Hs) as <-.
  apply app_inv_head in Hs.
  assert (Hsplit : run = take (length body) run ++ drop (length body) run)
    by (symmetry; apply take_drop).
  rewrite Hsplit, <- app_assoc in Hs.
  apply app_inj_1 in Hs as [Hbody Hrest];
    [|rewrite length_take; lia].
  destruct (drop (length body) run) as [|c t] eqn:Ed.
  - apply (f_equal length) in Ed. rewrite length_drop in Ed. cbn in Ed. lia.
  - rewrite Hsplit in Hrun. apply nonSpaces_app in Hrun as [_ Hrun].
    apply Forall_inv in Hrun. rewrite <- Hrest in Hend. cbn in Hend.
    congruence.
Qed.

(** * The markdown links *)

Lemma atom_NoneOf_one c x :
  atom_matches false (NoneOf [x]) c = negb (Ascii.eqb c x).
Proof. cbn. by rewrite orb_false_r. Qed.

Lemma runLength_ext f g s :
  (forall c, f c = g c) -> runLength f s = runLength g s.
Proof.
  intros E. induction s as [|c t IH]; [reflexivity|].
  cbn. rewrite E, IH. reflexivity.
Qed.

Lemma runLength_le f s : runLength f s <= length s.
Proof.
  induction s as [|c t IH]; cbn; [lia|]. destruct (f c); cbn; lia.
Qed.

Lemma take_runLength_length f s :
  take (length s - length (drop (runLength f s) s)) s
  = take (runLength f s) s.
Proof.
  rewrite length_drop. pose proof (runLength_le f s). f_equal. lia.
Qed.

(** The markdown pattern reads a link the way [readMarkdownLink] does. *)
Lemma match_here_MARKDOWN p s :
  match_here MARKDOWN_LINK_REGEX p s =
  match readMarkdownLink s with
  | Some (title, url, s') =>
      Some {| prev := Some ")"%char; rest := s';
              captures := [(2, url); (1, title)] |}
  | None => None
  end.
Proof.
  unfold match_here, readMarkdownLink.
  cbn [source MARKDOWN_LINK_REGEX run rest prev captures Plus lit
       list_ascii_of_string ignoreCase].
  destruct s as [|c s1]; [reflexivity|].
  cbn [atom_matches same_char]. destruct (Ascii.eqb c "[") eqn:Ec;
    [|reflexivity].
  erewrite repeat_greedy_run.
  2:{ intros q x t Hx. cbn [rest]. rewrite atom_NoneOf_one in Hx.
      apply negb_true_iff in Hx. by rewrite Hx. }
  cbn zeta. cbn [rest prev captures allows].
  rewrite andb_true_r.
  rewrite (runLength_ext _ _ s1 (fun x => atom_NoneOf_one x "]")).
  rewrite take_runLength_length.
  destruct (runLength (fun x => negb (Ascii.eqb x "]")) s1) as [|n1];
    [reflexivity|]. cbn [Nat.leb].
  destruct (drop (S n1) s1) as [|c1 [|c2 s2]] eqn:Ed;
    [reflexivity| by destruct (Ascii.eqb c1 "]") |].
  destruct (Ascii.eqb c1 "]"); [|reflexivity]. cbn [andb].
  destruct (Ascii.eqb c2 "("); [|reflexivity].
  erewrite repeat_greedy_run.
  2:{ intros q x t Hx. cbn [rest]. rewrite atom_NoneOf_one in Hx.
      apply negb_true_iff in Hx. by rewrite Hx. }
  cbn zeta. cbn [rest prev captures allows].
  rewrite andb_true_r.
  rewrite (runLength_ext _ _ s2 (fun x => atom_NoneOf_one x ")")).
  rewrite take_runLength_length.
  destruct (runLength (fun x => negb (Ascii.eqb x ")")) s2) as [|n2];
    [reflexivity|]. cbn [Nat.leb].
  destruct (drop (S n2) s2) as [|c3 s3] eqn:Ed2; [reflexivity|].
  destruct (Ascii.eqb_spec c3 ")") as [->|]; reflexivity.
Qed.

Lemma includes_char_false s c :
  includes s [c] = false -> Forall (fun x => Ascii.eqb x c = false) s.
Proof.
  induction s as [|x t IH]; intros H; [constructor|].
  cbn [includes startsWith] in H. rewrite andb_true_r in H.
  apply orb_false_iff in H as [Hx Ht]. constructor; auto.
Qed.

Lemma runLength_stop f a c b :
  Forall (fun x => f x = true) a -> f c = false ->
  runLength f (a ++ c :: b) = length a.
Proof.
  induction 1 as [|x a Hx _ IH]; intros Hc; cbn.
  - by rewrite Hc.
  - by rewrite Hx, IH.
Qed.

Lemma lacks_run s c :
  includes s [c] = false ->
  Forall (fun x => negb (Ascii.eqb x c) = true) s.
Proof.
  intros H. eapply Forall_impl; [by apply includes_char_false|].
  cbn. intros x Hx. by rewrite Hx.
Qed.

(** A well-formed link is read as it is written. *)
Lemma readMarkdownLink_link title url post :
  title <> [] -> includes title (lit "]") = false ->
  url <> [] -> includes url (lit ")") = false ->
  readMarkdownLink (lit "[" ++ title ++ lit "](" ++ url ++ lit ")" ++ post)
  = Some (title, url, post).
Proof.
  intros Ht Hnt Hu Hnu. unfold readMarkdownLink.
  cbn [lit list_ascii_of_string app]. cbn [Ascii.eqb Bool.eqb].
  rewrite (runLength_stop _ title "]" _ (lacks_run _ _ Hnt) eq_refl).
  destruct (length title) as [|n] eqn:El; [by destruct title|].
  rewrite <- El, drop_app_length. cbn [Ascii.eqb Bool.eqb andb].
  rewrite (runLength_stop _ url ")" _ (lacks_run _ _ Hnu) eq_refl).
  destruct (length url) as [|n'] eqn:El'; [by destruct url|].
  rewrite <- El', drop_app_length. cbn [Ascii.eqb Bool.eqb].
  by rewrite !take_app_length.
Qed.

(** The markdown pattern looks at nothing in front of a position. *)
Lemma scan_MARKDOWN_prev s : forall p q i,
  scan MARKDOWN_LINK_REGEX p s i = scan MARKDOWN_LINK_REGEX q s i.
Proof.
  induction s as [|c t IH]; intros p q i; cbn [scan];
    rewrite (match_here_MARKDOWN p), (match_here_MARKDOWN q).
  - reflexivity.
  - destruct (readMarkdownLink (c :: t)) as [[[? ?] ?]|]; [reflexivity|].
    apply IH.
Qed.

Lemma replace_loop_MARKDOWN_prev f : forall fuel s p q,
  replace_loop fuel MARKDOWN_LINK_REGEX f p s
  = replace_loop fuel MARKDOWN_LINK_REGEX f q s.
Proof.
  induction fuel as [|fuel IH]; intros s p q; [reflexivity|].
  cbn [replace_loop]. rewrite (scan_MARKDOWN_prev s p q).
  reflexivity.
Qed.

(** No link starts in a text without an opening bracket. *)
Lemma scan_MARKDOWN_skip pre : forall s p i,
  includes pre (lit "[") = false ->
  scan MARKDOWN_LINK_REGEX p (pre ++ s) i
  = scan MARKDOWN_LINK_REGEX None s (i + length pre).
Proof.
  induction pre as [|c pre IH]; intros s p i H.
  - cbn. rewrite Nat.add_0_r. apply scan_MARKDOWN_prev.
  - cbn [includes startsWith lit list_ascii_of_string] in H.
    rewrite andb_true_r in H.
    apply orb_false_iff in H as [Hc H].
    cbn [app scan]. rewrite match_here_MARKDOWN.
    unfold readMarkdownLink at 1. rewrite Hc.
    rewrite IH by exact H. f_equal. cbn. lia.
Qed.

Lemma startsWith_app p b : startsWith (p ++ b) p = true.
Proof.
  induction p as [|c p IH]; [reflexivity|].
  cbn. by rewrite Ascii.eqb_refl, IH.
Qed.

Lemma includes_app_intro a p b : includes (a ++ p ++ b) p = true.
Proof.
  induction a as [|c a IH].
  - destruct (p ++ b) eqn:E; cbn [app includes]; rewrite <- ?E;
      by rewrite startsWith_app.
  - cbn [app includes]. rewrite IH. apply orb_true_r.
Qed.

(** The first match the markdown replacement finds in a text made of a
    bracket-free start, a well-formed link and the rest. *)
Lemma scan_MARKDOWN_link pre title url post p :
  includes pre (lit "[") = false ->
  title <> [] -> includes title (lit "]") = false ->
  url <> [] -> includes url (lit ")") = false ->
  scan MARKDOWN_LINK_REGEX p
    (pre ++ lit "[" ++ title ++ lit "](" ++ url ++ lit ")" ++ post) 0
  = Some {| index := length pre;
            matched := lit "[" ++ title ++ lit "](" ++ url ++ lit ")";
            groups := [(2, url); (1, title)];
            after := {| prev := Some ")"%char; rest := post;
                        captures := [(2, url); (1, title)] |} |}.
Proof.
  intros Hpre Ht Hnt Hu Hnu.
  rewrite scan_MARKDOWN_skip by exact Hpre.
  set (s := lit "[" ++ title ++ lit "](" ++ url ++ lit ")" ++ post).
  assert (Hs : exists c t, s = c :: t) by (eexists _, _; reflexivity).
  destruct Hs as (c & t & Hs).
  assert (Hm : match_here MARKDOWN_LINK_REGEX None s =
               Some {| prev := Some ")"%char; rest := post;
                       captures := [(2, url); (1, title)] |}).
  { rewrite match_here_MARKDOWN. subst s.
    by rewrite readMarkdownLink_link. }
  rewrite Hs in *. cbn [scan]. rewrite Hm. cbn [rest captures Nat.add].
  f_equal. f_equal. rewrite <- Hs. subst s.
  replace (lit "[" ++ title ++ lit "](" ++ url ++ lit ")" ++ post)
    with ((lit "[" ++ title ++ lit "](" ++ url ++ lit ")") ++ post)
    by (by rewrite <- !app_assoc).
  rewrite length_app.
  replace (_ + length post - length post)
    with (length (lit "[" ++ title ++ lit "](" ++ url ++ lit ")")) by lia.
  apply take_app_length.
Qed.

(** The markdown step on such a text, when the target is unsafe. *)
Lemma replaceMarkdown_unsafe pre title url post :
  includes pre (lit "[") = false ->
  title <> [] -> includes title (lit "]") = false ->
  url <> [] -> includes url (lit ")") = false ->
  _isUrlSchemeSafe url = false ->
  replaceMarkdown
    (pre ++ lit "[" ++ title ++ lit "](" ++ url ++ lit ")" ++ post)
  = pre ++ _escapeHtml title ++ replaceMarkdown post.
Proof.
  intros Hpre Ht Hnt Hu Hnu Hunsafe.
  assert (Hpost : forall n, length post < n ->
    replace_loop n MARKDOWN_LINK_REGEX
      (fun m => markdownLink (group 1 m) (group 2 m)) (Some ")"%char) post
    = replaceMarkdown post).
  { intros n Hn. unfold replaceMarkdown, replace.
    cbn [global MARKDOWN_LINK_REGEX].
    rewrite (replace_loop_MARKDOWN_prev _ _ post _ None).
    apply replace_loop_fuel; lia. }
  unfold replaceMarkdown at 1, replace. cbn [global MARKDOWN_LINK_REGEX].
  cbn [replace_loop].
  rewrite scan_MARKDOWN_link by assumption.
  cbn [index matched after rest prev].
  rewrite take_app_length. f_equal.
  cbn [lit list_ascii_of_string app].
  rewrite Hpost.
  2:{ repeat (rewrite ?length_app; cbn [length]). lia. }
  f_equal.
  unfold group. cbn [groups find fst snd Nat.eqb].
  unfold markdownLink. by rewrite Hunsafe.
Qed.

Lemma readMarkdownLink_shape s title url s' :
  readMarkdownLink s = Some (title, url, s') ->
  s = lit "[" ++ title ++ lit "](" ++ url ++ lit ")" ++ s'.
Proof.
  unfold readMarkdownLink. destruct s as [|c s1]; [discriminate|].
  destruct (Ascii.eqb_spec c "[") as [->|]; [|discriminate].
  destruct (runLength (fun x => negb (Ascii.eqb x "]")) s1) as [|n1];
    [discriminate|].
  destruct (drop (S n1) s1) as [|c1 [|c2 s2]] eqn:E1; try discriminate.
  destruct (Ascii.eqb_spec c1 "]") as [->|]; [|discriminate].
  destruct (Ascii.eqb_spec c2 "(") as [->|]; [|discriminate]. cbn [andb].
  destruct (runLength (fun x => negb (Ascii.eqb x ")")) s2) as [|n2];
    [discriminate|].
  destruct (drop (S n2) s2) as [|c3 s3] eqn:E2; try discriminate.
  destruct (Ascii.eqb_spec c3 ")") as [->|]; [|discriminate].
  intros H. injection H as <- <- <-.
  cbn [lit list_ascii_of_string app]. f_equal.
  rewrite <- (take_drop (S n1) s1) at 1. rewrite E1. f_equal.
  do 2 f_equal.
  rewrite <- (take_drop (S n2) s2) at 1. by rewrite E2.
Qed.


(** One step of the markdown replacement. *)
Lemma replaceMarkdown_step s m :
  scan MARKDOWN_LINK_REGEX None s 0 = Some m ->
  replaceMarkdown s
  = take (index m) s ++ markdownLink (group 1 m) (group 2 m)
      ++ replaceMarkdown (rest (after m)).
Proof.
  intros H.
  destruct (scan_progress MARKDOWN_LINK_REGEX eq_refl _ _ _ _ H)
    as [Hne Hl].
  unfold replaceMarkdown at 1, replace. cbn [global MARKDOWN_LINK_REGEX].
  cbn [replace_loop]. rewrite H. do 2 f_equal.
  destruct (matched m) as [|c0 t0]; [done|].
  rewrite (replace_loop_MARKDOWN_prev _ _ _ _ None).
  unfold replaceMarkdown, replace. cbn [global MARKDOWN_LINK_REGEX].
  apply replace_loop_fuel; lia.
Qed.

(** * The call as a whole *)

(** [transform] with link rendering enabled, on a text that is not empty,
    step by step. *)
Lemma transform_links σ c t :
  let text := c :: t in
  transform σ text true =
  if negb (includes text (lit "://") || includes text (lit "www."))
     && negb (includes text (lit "]("))
  then Some (_escapeHtml text, σ)
  else
    let md := test MARKDOWN_LINK_REGEX 0 text in
    let html := if fst md then replaceMarkdown text else text in
    let σ1 := if fst md then set_md 0 σ else set_md (snd md) σ in
    let url := test URL_REGEX 0 html in
    let σ2 := set_url (snd url) σ1 in
    if fst url then
      match segments html with
      | Some parts =>
          Some (concat (map renderPart parts), snd (renderParts σ2 parts))
      | None => None
      end
    else if fst md then Some (html, σ2)
    else Some (_escapeHtml text, σ2).
Proof.
  intros text. unfold transform. fold text. cbn [negb].
  destruct (negb _ && negb _); [reflexivity|].
  cbn [set_md set_url MARKDOWN_LINK_REGEX_lastIndex URL_REGEX_lastIndex].
  destruct (test MARKDOWN_LINK_REGEX 0 text) as [hasMarkdown li1].
  cbn [fst snd]. destruct hasMarkdown; cbn zeta;
    cbn [set_md set_url MARKDOWN_LINK_REGEX_lastIndex URL_REGEX_lastIndex].
  - destruct (test URL_REGEX 0 (replaceMarkdown text)) as [hasUrls li2].
    cbn [fst snd negb andb]. destruct hasUrls; [|reflexivity].
    unfold linkPlainUrls.
    destruct (segments (replaceMarkdown text)) as [parts|]; [|reflexivity].
    rewrite <- renderParts_map with (σ := set_url li2 (set_md 0 σ)).
    unfold set_url, set_md. cbn.
    by destruct (renderParts _ parts).
  - destruct (test URL_REGEX 0 text) as [hasUrls li2].
    cbn [fst snd negb andb]. destruct hasUrls; [|reflexivity].
    unfold linkPlainUrls.
    destruct (segments text) as [parts|]; [|reflexivity].
    rewrite <- renderParts_map with (σ := set_url li2 (set_md li1 σ)).
    unfold set_url, set_md. cbn.
    by destruct (renderParts _ parts).
Qed.

Lemma segments_total s : exists parts,
  segments s = Some parts /\ concat (map text parts) = s /\
  Forall (fun part => text part <> []) parts /\
  Forall (fun part => isAnchor part = true -> isAnchorText (text part))
    parts.
Proof. apply anchorParts_partition. lia. Qed.

(** A call returns, and what it returns does not depend on the
    [lastIndex] the shared expressions were left with. *)
Lemma transform_output text renderLinks :
  exists out, forall σ, exists σ',
    transform σ text renderLinks = Some (out, σ').
Proof.
  destruct text as [|c t]; [by exists []; intros σ; exists σ|].
  destruct renderLinks; [|by eexists; intros σ; exists σ].
  pose proof (fun σ => transform_links σ c t) as H. cbn zeta in H.
  destruct (negb _ && negb _) eqn:Eh in H.
  { eexists. intros σ. exists σ. by rewrite H. }
  destruct (fst (test URL_REGEX 0 _)) eqn:Eu in H.
  - destruct (segments_total
      (if fst (test MARKDOWN_LINK_REGEX 0 (c :: t))
       then replaceMarkdown (c :: t) else c :: t)) as (parts & Hp & _).
    rewrite Hp in H. eexists. intros σ. eexists. by rewrite H.
  - destruct (fst (test MARKDOWN_LINK_REGEX 0 (c :: t))) eqn:Em in H;
      eexists; intros σ; eexists; by rewrite H.
Qed.

(** * The classifier *)

Lemma startsWith_spec p : forall s,
  startsWith s p = true <-> exists b, s = p ++ b.
Proof.
  induction p as [|a p IH]; intros s; cbn.
  - split; [by exists s | done].
  - destruct s as [|c s]; [split; [done | by intros [? ?]]|].
    rewrite andb_true_iff, IH. split.
    + intros [Hc [b ->]]. apply Ascii.eqb_eq in Hc as ->. by exists b.
    + intros [b Hb]. injection Hb as -> ->.
      split; [apply Ascii.eqb_refl | by exists b].
Qed.

Lemma includes_spec p : forall s,
  includes s p = true <-> exists a b, s = a ++ p ++ b.
Proof.
  intros s. split.
  - induction s as [|c s IH]; cbn [includes]; rewrite orb_true_iff.
    + intros [H|H]; [|done]. apply startsWith_spec in H as [b ->].
      by exists [], b.
    + intros [H|H].
      * apply startsWith_spec in H as [b ->]. by exists [], b.
      * apply IH in H as (a & b & ->). by exists (c :: a), b.
  - intros (a & b & ->). apply includes_app_intro.
Qed.

Lemma includes_eq s s' p p' :
  ((exists a b, s = a ++ p ++ b) <-> (exists a b, s' = a ++ p' ++ b)) ->
  includes s p = includes s' p'.
Proof.
  intros H. rewrite <- !includes_spec in H.
  destruct (includes s p), (includes s' p'); try reflexivity.
  - symmetry. by apply H.
  - by apply H.
Qed.

Lemma includes_rev s p : includes (rev s) p = includes s (rev p).
Proof.
  apply includes_eq. split; intros (a & b & H).
  - exists (rev b), (rev a). apply (f_equal (@rev ascii)) in H.
    rewrite rev_involutive in H. by rewrite H, !rev_app_distr, app_assoc.
  - exists (rev b), (rev a). rewrite H, !rev_app_distr, rev_involutive.
    by rewrite app_assoc.
Qed.

(** Trimming removes nothing a text without whitespace is found in. *)
Lemma includes_trimStart a p : isWhiteSpace a = false ->
  forall s, includes (trimStart s) (a :: p) = includes s (a :: p).
Proof.
  intros Ha. induction s as [|c s IH]; [reflexivity|].
  cbn [trimStart]. destruct (isWhiteSpace c) eqn:Ec; [|reflexivity].
  rewrite IH. cbn [includes startsWith].
  destruct (Ascii.eqb_spec c a) as [->|]; [congruence | reflexivity].
Qed.

Lemma includes_trim_scheme s :
  includes (trim s) (lit "://") = includes s (lit "://").
Proof.
  unfold trim, trimEnd. rewrite includes_rev.
  cbn [lit list_ascii_of_string rev app].
  rewrite includes_trimStart by reflexivity.
  rewrite includes_rev. cbn [rev app].
  by rewrite includes_trimStart.
Qed.

Lemma toLowerChar_colon c :
  Ascii.eqb (toLowerChar c) ":" = Ascii.eqb c ":".
Proof. destruct c as [[] [] [] [] [] [] [] []]; reflexivity. Qed.

Lemma toLowerChar_slash c :
  Ascii.eqb (toLowerChar c) "/" = Ascii.eqb c "/".
Proof. destruct c as [[] [] [] [] [] [] [] []]; reflexivity. Qed.

Lemma includes_toLowerCase_scheme s :
  includes (toLowerCase s) (lit "://") = includes s (lit "://").
Proof.
  induction s as [|c s IH]; [reflexivity|].
  cbn [toLowerCase map includes]. fold (toLowerCase s). rewrite IH.
  f_equal. cbn [lit list_ascii_of_string startsWith].
  rewrite toLowerChar_colon.
  destruct s as [|c1 [|c2 s]]; cbn [map toLowerCase].
  all: rewrite ?toLowerChar_slash; reflexivity.
Qed.

(** Whether [://] occurs is the same before and after trimming and
    lower-casing. *)
Lemma includes_scheme_lowerUrl url :
  includes (toLowerCase (trim url)) (lit "://") = includes url (lit "://").
Proof. by rewrite includes_toLowerCase_scheme, includes_trim_scheme. Qed.

Lemma startsWith_head s a p :
  startsWith s (a :: p) = true -> exists t, s = a :: t.
Proof. intros H. apply startsWith_spec in H as [b ->]. by eexists. Qed.

(** A text that starts with an accepted prefix starts with no dangerous
    scheme. *)
Lemma accepted_not_dangerous l :
  existsb (startsWith l) acceptedPrefixes = true ->
  existsb (startsWith l) dangerousSchemes = false.
Proof.
  intros H. cbn [existsb acceptedPrefixes] in H.
  rewrite !orb_true_iff in H.
  destruct H as [H|[H|[H|[H|H]]]]; [..|discriminate];
    apply startsWith_head in H as [t ->]; reflexivity.
Qed.

(** What trimming leaves in front stays in front. *)
Lemma trimStart_app_keep u c v : isWhiteSpace c = false ->
  exists w, trimStart (u ++ c :: v) = w ++ c :: v.
Proof.
  intros Hc. induction u as [|x u [w IH]]; cbn [app trimStart].
  - rewrite Hc. by exists [].
  - destruct (isWhiteSpace x); [by exists w | by exists (x :: u)].
Qed.

Lemma startsWith_trim s p :
  p <> [] -> Forall (fun c => isWhiteSpace c = false) p ->
  startsWith s p = true -> startsWith (trim s) p = true.
Proof.
  intros Hne Hp H. apply startsWith_spec in H as [b ->].
  apply startsWith_spec. unfold trim, trimEnd.
  destruct p as [|a p]; [done|]. cbn [app trimStart].
  rewrite (proj1 (Forall_forall _ _) Hp a) by (by left).
  change (a :: p ++ b) with ((a :: p) ++ b). rewrite rev_app_distr.
  destruct (rev (a :: p)) as [|c v] eqn:E.
  { apply (f_equal (@length ascii)) in E. rewrite length_rev in E.
    discriminate. }
  assert (Hc : isWhiteSpace c = false).
  { apply (proj1 (Forall_forall _ _) Hp).
    apply list_elem_of_In, in_rev. rewrite E. by left. }
  destruct (trimStart_app_keep (rev b) c v Hc) as [w ->].
  rewrite rev_app_distr, <- E, rev_involutive. by eexists.
Qed.

Lemma startsWith_toLowerCase s p :
  toLowerCase p = p ->
  startsWith s p = true -> startsWith (toLowerCase s) p = true.
Proof.
  intros Hp H. apply startsWith_spec in H as [b ->].
  apply startsWith_spec. exists (toLowerCase b).
  unfold toLowerCase in *. by rewrite map_app, Hp.
Qed.

Lemma accepted_lowerUrl url :
  existsb (startsWith url) acceptedPrefixes = true ->
  existsb (startsWith (toLowerCase (trim url))) acceptedPrefixes = true.
Proof.
  cbn [existsb acceptedPrefixes]. rewrite !orb_true_iff.
  intros [H|[H|[H|[H|H]]]]; [..|discriminate].
  all: apply startsWith_trim in H;
    [|discriminate|by repeat constructor].
  all: apply startsWith_toLowerCase in H; [|reflexivity].
  all: rewrite H; auto.
Qed.

(** * The normalizer *)

Lemma run_Opt ic c {R} st (k : MatchState -> option R) :
  run ic (Opt (Chr c)) st k =
  match rest st with
  | x :: t =>
      if same_char ic x c
      then match k {| prev := Some x; rest := t; captures := captures st |}
           with
           | Some r => Some r
           | None =>
               k {| prev := prev st; rest := x :: t;
                    captures := captures st |}
           end
      else k {| prev := prev st; rest := x :: t; captures := captures st |}
  | [] => k {| prev := prev st; rest := []; captures := captures st |}
  end.
Proof.
  destruct st as [p s caps]. cbn [Opt run rest prev captures].
  rewrite repeat_atom_unfold. cbn zeta.
  destruct s as [|x t]; [reflexivity|].
  cbn [atom_matches may_repeat andb]. rewrite andb_true_r.
  destruct (same_char ic x c); [|reflexivity].
  rewrite repeat_atom_unfold. cbn zeta. cbn [one_less Nat.pred may_repeat].
  destruct t as [|y t]; [reflexivity|]. by rewrite andb_false_r.
Qed.

(** Behind the first character the pattern of the normalizer, which
    begins with [^], matches nowhere. *)
Lemma scan_schemePrefix_later s : forall c i,
  scan schemePrefix (Some c) s i = None.
Proof.
  induction s as [|x t IH]; intros c i; cbn [scan]; [reflexivity|].
  change (match_here schemePrefix (Some c) (x :: t)) with (@None MatchState).
  apply IH.
Qed.

(** It matches the three prefixes, written in small letters. *)
Lemma match_schemePrefix url :
  match match_ schemePrefix url with Some _ => true | None => false end
  = startsWith url (lit "http://") || startsWith url (lit "https://")
    || startsWith url (lit "file://").
Proof.
  change (lit "http://") with (lit "http" ++ lit "://").
  change (lit "https://") with (lit "http" ++ lit "s" ++ lit "://").
  change (lit "file://") with (lit "file" ++ lit "://").
  rewrite !startsWith_app_split.
  change (length (lit "http")) with 4. change (length (lit "file")) with 4.
  change (length (lit "s")) with 1. rewrite drop_drop.
  change (4 + 1) with 5.
  assert (Hhere :
    match match_here schemePrefix None url with
    | Some _ => true | None => false end
    = startsWith url (lit "http") && startsWith (drop 4 url) (lit "://")
      || startsWith url (lit "http")
         && (startsWith (drop 4 url) (lit "s")
             && startsWith (drop 5 url) (lit "://"))
      || startsWith url (lit "file") && startsWith (drop 4 url) (lit "://")).
  { unfold match_here.
    cbn [source schemePrefix ignoreCase run prev rest captures].
    rewrite !run_Lit. cbn [rest prev captures].
    rewrite !starts_startsWith.
    change (length (lit "http")) with 4. change (length (lit "file")) with 4.
    destruct (startsWith url (lit "http")) eqn:Eh; cbn [andb orb].
    - rewrite run_Opt. cbn [rest prev captures].
      assert (Hf : startsWith url (lit "file") = false).
      { apply startsWith_head in Eh as [t ->]. reflexivity. }
      rewrite Hf. cbn [andb]. rewrite orb_false_r.
      destruct (drop 4 url) as [|x t] eqn:Ed.
      + rewrite run_Lit. reflexivity.
      + cbn [same_char]. rewrite !run_Lit. cbn [rest].
        rewrite !starts_startsWith.
        replace (drop 5 url) with t
          by (change 5 with (4 + 1); by rewrite <- drop_drop, Ed).
        assert (Hs : startsWith (x :: t) (lit "s") = Ascii.eqb x "s")
          by (cbn; apply andb_true_r).
        rewrite Hs. destruct (Ascii.eqb x "s") eqn:Ex.
        * apply Ascii.eqb_eq in Ex as ->.
          change (startsWith ("s"%char :: t) (lit "://")) with false.
          cbn [orb andb]. by destruct (startsWith t (lit "://")).
        * cbn [andb]. rewrite orb_false_r.
          by destruct (startsWith (x :: t) (lit "://")).
    - destruct (startsWith url (lit "file")); cbn [andb]; [|reflexivity].
      rewrite ?run_Lit. cbn [rest]. rewrite ?starts_startsWith.
      by destruct (startsWith (drop 4 url) (lit "://")). }
  rewrite <- Hhere. unfold match_. destruct url as [|c t]; cbn [scan].
  - by destruct (match_here schemePrefix None []).
  - destruct (match_here schemePrefix None (c :: t)); [reflexivity|].
    by rewrite scan_schemePrefix_later.
Qed.

(** What the normalizer does, for every URL. *)
Lemma normalizeHref_cases url :
  _normalizeHref url =
  if startsWith url (lit "http://") || startsWith url (lit "https://")
     || startsWith url (lit "file://")
  then url
  else if startsWith url (lit "//") then lit "https:" ++ url
  else lit "http://" ++ url.
Proof.
  unfold _normalizeHref. rewrite <- match_schemePrefix.
  by destruct (match_ schemePrefix url).
Qed.

(** * The punctuation behind a URL *)

Lemma runLength_all f s :
  forallb f s = true -> runLength f s = length s.
Proof.
  induction s as [|c t IH]; [reflexivity|]. cbn.
  destruct (f c); [|discriminate]. intros H. by rewrite IH.
Qed.

Lemma runLength_not_all f s :
  forallb f s = false -> runLength f s < length s.
Proof.
  induction s as [|c t IH]; [discriminate|]. cbn.
  destruct (f c); cbn; [|lia]. intros H. apply IH in H. lia.
Qed.

Lemma atom_sentence_punctuation c :
  atom_matches false (OneOf (lit ".,;!?")) c = isSentencePunctuation c.
Proof. reflexivity. Qed.

(** The pattern matches at a position when all that follows, one
    character at least, is such punctuation. *)
Lemma match_here_trailingPunctuation p s :
  match_here trailingPunctuation p s =
  if forallb isSentencePunctuation s && negb (Nat.eqb (length s) 0)
  then Some {| prev := prev_after p s; rest := []; captures := [] |}
  else None.
Proof.
  unfold match_here.
  cbn [source trailingPunctuation ignoreCase run Plus rest prev captures].
  erewrite repeat_greedy_run by reflexivity.
  cbn zeta. cbn [allows]. rewrite andb_true_r.
  rewrite (runLength_ext _ _ s atom_sentence_punctuation).
  destruct (forallb isSentencePunctuation s) eqn:E.
  - rewrite (runLength_all _ _ E), take_ge, drop_ge by lia.
    cbn [andb run rest]. by destruct s.
  - apply runLength_not_all in E. cbn [andb].
    destruct (1 <=? _); [|reflexivity]. cbn [run rest].
    destruct (drop _ s) eqn:Ed; [|reflexivity].
    apply (f_equal (@length ascii)) in Ed. rewrite length_drop in Ed.
    cbn in Ed. lia.
Qed.

Lemma scan_trailingPunctuation s : forall p i,
  match scan trailingPunctuation p s i with
  | Some m =>
      i <= index m /\ take (index m - i) s = stripTrailingPunctuation s /\
      rest (after m) = []
  | None => stripTrailingPunctuation s = s
  end.
Proof.
  induction s as [|c t IH]; intros p i; cbn [scan];
    rewrite match_here_trailingPunctuation.
  - reflexivity.
  - cbn [length Nat.eqb negb]. rewrite andb_true_r.
    cbn [stripTrailingPunctuation].
    destruct (forallb isSentencePunctuation (c :: t)).
    + cbn [index after rest]. rewrite Nat.sub_diag. by repeat split.
    + specialize (IH (Some c) (S i)).
      destruct (scan trailingPunctuation (Some c) t (S i)) as [m|].
      * destruct IH as (Hi & Ht & Hr). repeat split; [lia| |exact Hr].
        replace (index m - i) with (S (index m - S i)) by lia.
        cbn [take firstn]. by rewrite Ht.
      * by rewrite IH.
Qed.

(** [cleanUrl] is the URL without its trailing punctuation. *)
Lemma cleanUrl_strips url :
  replace trailingPunctuation (fun _ => []) url
  = stripTrailingPunctuation url.
Proof.
  unfold replace. cbn [global trailingPunctuation].
  pose proof (scan_trailingPunctuation url None 0) as H.
  destruct (scan trailingPunctuation None url 0) as [m|]; [|by rewrite H].
  destruct H as (_ & Ht & Hr). rewrite Nat.sub_0_r in Ht.
  rewrite Ht, Hr. cbn [app]. apply app_nil_r.
Qed.

(** * The title service *)
Import UrlMetadataService.




(** * The properties *)

(** C8 (as amended).  The escaper is defined on every text and replaces
    four characters, the ampersand by [&amp;], the two angle brackets by
    [&lt;] and [&gt;] and the double quote by [&quot;]; every other
    character, the apostrophe among them, stays as it is.  As the
    ampersands are replaced first, the four replacements amount to one
    pass over the text: no entity they write is escaped again.  No angle
    bracket and no double quote is left in the result. *)
Theorem escapeHtml_replaces_four_characters (text : str) :
  _escapeHtml text = flat_map escapeChar text /\
  (forall c, In c [ "<"; ">"; dquote ]%char -> ~ In c (_escapeHtml text)).
Proof.
  split; [apply escapeHtml_flat_map|].
  intros c Hc. rewrite escapeHtml_flat_map, in_flat_map.
  intros (x & _ & Hx). unfold escapeChar in Hx.
  assert (Hentity : forall e,
    In e [lit "&amp;"; lit "&lt;"; lit "&gt;"; lit "&quot;"] -> ~ In c e).
  { intros e He Hin. cbn in He, Hc. unfold dquote in Hc.
    destruct He as [<-|[<-|[<-|[<-|[]]]]]; cbn in Hin;
      intuition congruence. }
  destruct (Ascii.eqb x "&") eqn:E1;
    [eapply Hentity; [|exact Hx]; cbn; auto 6|].
  destruct (Ascii.eqb x "<") eqn:E2;
    [eapply Hentity; [|exact Hx]; cbn; auto 6|].
  destruct (Ascii.eqb x ">") eqn:E3;
    [eapply Hentity; [|exact Hx]; cbn; auto 6|].
  destruct (Ascii.eqb x dquote) eqn:E4;
    [eapply Hentity; [|exact Hx]; cbn; auto 6|].
  apply Ascii.eqb_neq in E2, E3, E4.
  cbn in Hc, Hx. intuition congruence.
Qed.

Lemma escapeHtml_replaces_four_characters_witness :
  ~ In "<"%char (_escapeHtml (lit "a<b & c")).
Proof.
  apply (proj2 (escapeHtml_replaces_four_characters _)). cbn. auto.
Defined.

(** C8 as stated fails: of the five characters HTML gives a meaning to,
    the apostrophe is not escaped. *)
Lemma escapeHtml_leaves_the_apostrophe :
  ~ (forall text c, In c markupChars -> ~ In c (_escapeHtml text)).
Proof.
  intros H. apply (H (lit "it's") "'"%char).
  - cbn. auto.
  - vm_compute. auto.
Qed.

(** C2.  The classifier decides in this order.  A candidate that, trimmed
    and in lower case, starts with [javascript:], [data:] or [vbscript:]
    is unsafe.  A candidate that starts with [http://], [https://],
    [file://] or [//], as it is written or once trimmed and in lower case,
    is safe.  Of the candidates left, those in which [://] does not occur
    are safe, and all others, which carry an unknown scheme, are unsafe. *)
Theorem isUrlSchemeSafe_decision (candidate : str) :
  let lowerUrl := toLowerCase (trim candidate) in
  let dangerous := existsb (startsWith lowerUrl) dangerousSchemes in
  let accepted := existsb (startsWith lowerUrl) acceptedPrefixes in
  (dangerous = true -> _isUrlSchemeSafe candidate = false) /\
  (accepted = true -> _isUrlSchemeSafe candidate = true) /\
  (existsb (startsWith candidate) acceptedPrefixes = true ->
     _isUrlSchemeSafe candidate = true) /\
  (dangerous = false -> includes candidate (lit "://") = false ->
     _isUrlSchemeSafe candidate = true) /\
  (dangerous = false -> accepted = false ->
     includes candidate (lit "://") = true ->
     _isUrlSchemeSafe candidate = false).
Proof.
  intros lowerUrl dangerous accepted.
  assert (Hdef : _isUrlSchemeSafe candidate =
    if dangerous then false
    else if accepted then true
    else negb (includes candidate (lit "://"))).
  { unfold _isUrlSchemeSafe. fold lowerUrl.
    change (existsb (fun scheme => startsWith lowerUrl scheme)
              dangerousSchemes) with dangerous.
    replace (startsWith lowerUrl (lit "http://")
             || startsWith lowerUrl (lit "https://")
             || startsWith lowerUrl (lit "file://")
             || startsWith lowerUrl (lit "//")) with accepted
      by (subst accepted; cbn [existsb acceptedPrefixes];
          by rewrite orb_false_r, !orb_assoc).
    subst lowerUrl. rewrite includes_scheme_lowerUrl.
    destruct dangerous, accepted, (includes candidate (lit "://"));
      reflexivity. }
  assert (Hacc : accepted = true -> dangerous = false)
    by apply accepted_not_dangerous.
  repeat split.
  - intros H. by rewrite Hdef, H.
  - intros H. by rewrite Hdef, (Hacc H), H.
  - intros H. apply accepted_lowerUrl in H. fold lowerUrl accepted in H.
    by rewrite Hdef, (Hacc H), H.
  - intros Hd Hi. rewrite Hdef, Hd, Hi. by destruct accepted.
  - intros Hd Ha Hi. by rewrite Hdef, Hd, Ha, Hi.
Qed.

Lemma isUrlSchemeSafe_decision_witness :
  _isUrlSchemeSafe (lit "  JavaScript:alert(1)") = false /\
  _isUrlSchemeSafe (lit " HTTPS://example.com ") = true /\
  _isUrlSchemeSafe (lit "//cdn.example.com/x") = true /\
  _isUrlSchemeSafe (lit "www.example.com") = true /\
  _isUrlSchemeSafe (lit "ftp://example.com") = false.
Proof.
  split; [|split; [|split; [|split]]].
  - apply (proj1 (isUrlSchemeSafe_decision _)). reflexivity.
  - apply (proj1 (proj2 (isUrlSchemeSafe_decision _))). reflexivity.
  - apply (proj1 (proj2 (proj2 (isUrlSchemeSafe_decision _)))).
    reflexivity.
  - apply (proj1 (proj2 (proj2 (proj2 (isUrlSchemeSafe_decision _)))));
      reflexivity.
  - apply (proj2 (proj2 (proj2 (proj2 (isUrlSchemeSafe_decision _)))));
      reflexivity.
Defined.

Lemma includes_char_Forall s c :
  includes s [c] = false ->
  Forall (fun x => atom_matches false (NoneOf [c]) x = true) s.
Proof.
  intros H. eapply Forall_impl; [by apply includes_char_false|].
  cbn. intros x Hx. by rewrite Hx.
Qed.














(** C10.  From whatever [lastIndex] the two shared expressions were left
    with, a call returns, and a second call with the same arguments, run
    on the expressions as the first call left them, returns the same
    text. *)
Theorem transform_deterministic (σ : Regexps) (text : str)
    (renderLinks : bool) :
  exists out σ1 σ2,
    transform σ text renderLinks = Some (out, σ1) /\
    transform σ1 text renderLinks = Some (out, σ2).
Proof.
  destruct (transform_output text renderLinks) as [out H].
  destruct (H σ) as [σ1 H1]. destruct (H σ1) as [σ2 H2].
  by exists out, σ1, σ2.
Qed.

(** C7 (as amended).  Whatever the plain-URL detector matches is a token:
    one of the prefixes [http://], [https://], [file://] and [www.], in
    any mix of capitals and small letters, and then 1 to 2000 characters
    that are not whitespace, up to a whitespace character or the end of
    the text.  No match starts at a prefix that more than 2000 characters
    other than whitespace follow, so that the first match found in a text
    that begins with such a prefix, if there is one, starts further on.
    (Nothing is said about a prefix found further on in such a run.) *)
Theorem url_detector_matches_bounded_tokens :
  (forall s p i m,
     scan URL_REGEX p s i = Some m ->
     urlToken (matched m) (rest (after m))) /\
  (forall p prefix run rest,
     isUrlPrefix prefix -> nonSpaces run -> 2000 < length run ->
     match_here URL_REGEX p (prefix ++ run ++ rest) = None /\
     (forall m, scan URL_REGEX p (prefix ++ run ++ rest) 0 = Some m ->
                0 < index m)).
Proof.
  split.
  - intros s p i m H. apply scan_denotes in H as [q H].
    by eapply URL_REGEX_denotes.
  - intros p prefix run rest Hp Hrun Hlen.
    pose proof (URL_REGEX_long_run p prefix run rest Hp Hrun Hlen) as Hnone.
    split; [exact Hnone|]. intros m Hm.
    destruct (prefix ++ run ++ rest) as [|c t]; cbn [scan] in Hm;
      rewrite Hnone in Hm; [discriminate|].
    apply scan_spec in Hm as (pre & _ & Hi & _). lia.
Qed.

Lemma nonSpaces_repeat c n : isWhiteSpace c = false -> nonSpaces (repeat c n).
Proof.
  intros H. apply Forall_forall. intros x Hx.
  apply list_elem_of_In, repeat_spec in Hx. by subst.
Qed.

Lemma url_detector_matches_bounded_tokens_witness :
  urlToken (lit "https://a.com/x.") (lit " now") /\
  match_here URL_REGEX None
    (lit "http://" ++ repeat "a"%char 2001 ++ lit " end") = None.
Proof.
  split.
  - apply (proj1 url_detector_matches_bounded_tokens
             (lit "See https://a.com/x. now") None 0
             {| index := 4; matched := lit "https://a.com/x.";
                groups := [];
                after := {| prev := Some "."%char; rest := lit " now";
                            captures := [] |} |}).
    vm_compute. reflexivity.
  - apply (proj2 url_detector_matches_bounded_tokens).
    + exists (lit "http://"). split; [cbn; auto | reflexivity].
    + by apply nonSpaces_repeat.
    + rewrite repeat_length. lia.
Defined.

(** C7 as stated fails: the text is one prefix and 2004 characters other
    than whitespace, and all of it behind the prefix is turned into an
    anchor, by the match that starts at [www.]. *)
Lemma overlong_token_is_linked_from_www :
  let run := lit "www." ++ repeat "a"%char 2000 in
  let token := lit "http://" ++ run in
  forallb (fun c => negb (isWhiteSpace c)) run = true /\
  length run = 2004 /\
  option_map index (scan URL_REGEX None token 0) = Some 7 /\
  render token true
  = Some (lit "http://" ++ anchor (lit "http://" ++ run) run).
Proof. vm_compute. repeat split. Qed.



(** The example of C6: the call returns [x)]. *)
Lemma render_javascript_link :
  render (lit "[x](javascript:alert(1))") true = Some (lit "x)").
Proof. vm_compute. reflexivity. Qed.





(** C1, at the failing inputs.  Once a link is rendered, the text around
    it is returned as it was typed: the tags [<b>] and [<i>] reach the
    output unescaped, beside a plain URL and beside a markdown link,
    though the escaper would have written them [&lt;b&gt;] and
    [&lt;i&gt;].  In general the plain-URL step returns a text in which it
    finds no token as it is, not escaped. *)
Theorem render_leaves_text_around_links_unescaped :
  (forall s, scan URL_REGEX None s 0 = None -> replaceUrls s = s) /\
  render (lit "<b> www.a.com") true
  = Some (lit "<b> " ++ anchor (lit "http://www.a.com") (lit "www.a.com")) /\
  render (lit "<i>[x](http://a.com)") true
  = Some (lit "<i>" ++ anchor (lit "http://a.com") (lit "x")) /\
  _escapeHtml (lit "<b> ") = lit "&lt;b&gt; " /\
  _escapeHtml (lit "<i>") = lit "&lt;i&gt;".
Proof.
  split.
  - intros s H. unfold replaceUrls, replace. cbn [global URL_REGEX].
    cbn [replace_loop]. by rewrite H.
  - vm_compute. repeat split.
Qed.

Lemma render_leaves_text_around_links_unescaped_witness :
  replaceUrls (lit "<b>bold</b> & more") = lit "<b>bold</b> & more".
Proof.
  apply (proj1 render_leaves_text_around_links_unescaped). reflexivity.
Defined.

(** C3, at the failing input.  The full stop behind the URL is taken off
    the [href] and off the label, and it is not put back: the output ends
    with the anchor.  In general what the callback returns for a match is
    made of the URL without its trailing punctuation, and of nothing
    else. *)
Theorem render_drops_trailing_punctuation :
  (forall url,
     plainUrl url =
     let cleanUrl := stripTrailingPunctuation url in
     if negb (_isUrlSchemeSafe cleanUrl) then _escapeHtml cleanUrl
     else anchor (_escapeHtml (_normalizeHref cleanUrl))
                 (_escapeHtml cleanUrl)) /\
  stripTrailingPunctuation (lit "http://a.com/x.") = lit "http://a.com/x" /\
  render (lit "See http://a.com/x.") true
  = Some (lit "See "
          ++ anchor (lit "http://a.com/x") (lit "http://a.com/x")).
Proof.
  split.
  - intros url. unfold plainUrl. by rewrite cleanUrl_strips.
  - vm_compute. repeat split.
Qed.

(** C5, at the failing input.  The normalizer returns a URL unchanged when
    it starts with [http://], [https://] or [file://] in small letters,
    puts [https:] in front of one that starts with [//], and [http://] in
    front of any other.  The classifier accepts the scheme written in
    capitals; the normalizer does not recognize it and puts [http://] in
    front of the whole URL. *)
Theorem normalizeHref_misses_capital_scheme :
  (forall url,
     _normalizeHref url =
     if startsWith url (lit "http://") || startsWith url (lit "https://")
        || startsWith url (lit "file://")
     then url
     else if startsWith url (lit "//") then lit "https:" ++ url
     else lit "http://" ++ url) /\
  _isUrlSchemeSafe (lit "HTTP://a.com") = true /\
  _normalizeHref (lit "HTTP://a.com") = lit "http://HTTP://a.com" /\
  render (lit "HTTP://a.com") true
  = Some (anchor (lit "http://HTTP://a.com") (lit "HTTP://a.com")).
Proof.
  split; [apply normalizeHref_cases|]. vm_compute. repeat split.
Qed.

(** * Further properties of the escaper *)

Lemma escapeHtml_app a b :
  _escapeHtml (a ++ b) = _escapeHtml a ++ _escapeHtml b.
Proof. rewrite !escapeHtml_flat_map. apply flat_map_app. Qed.

Lemma escapeChar_plain c : plainChar c = true -> escapeChar c = [c].
Proof.
  unfold plainChar, escapeChar. intros H. apply negb_true_iff in H.
  apply orb_false_iff in H as [H H4]. apply orb_false_iff in H as [H H3].
  apply orb_false_iff in H as [H1 H2]. by rewrite H1, H2, H3, H4.
Qed.

Lemma escapeChar_special c :
  plainChar c = false ->
  exists e, escapeChar c = "&"%char :: e /\ e <> [] /\
            forallb plainChar e = true.
Proof.
  unfold plainChar, escapeChar. intros H. apply negb_false_iff in H.
  destruct (Ascii.eqb c "&"); [by eexists; repeat split|].
  destruct (Ascii.eqb c "<"); [by eexists; repeat split|].
  destruct (Ascii.eqb c ">"); [by eexists; repeat split|].
  destruct (Ascii.eqb c dquote); [by eexists; repeat split|].
  discriminate.
Qed.

(** What the escaper writes for one character tells which character it
    was, whatever follows. *)
Lemma escapeChar_prefix_free c1 c2 r1 r2 :
  escapeChar c1 ++ r1 = escapeChar c2 ++ r2 -> c1 = c2 /\ r1 = r2.
Proof.
  unfold escapeChar.
  destruct (Ascii.eqb_spec c1 "&") as [->|N1];
    [|destruct (Ascii.eqb_spec c1 "<") as [->|N2];
      [|destruct (Ascii.eqb_spec c1 ">") as [->|N3];
        [|destruct (Ascii.eqb_spec c1 dquote) as [->|N4]]]];
  (destruct (Ascii.eqb_spec c2 "&") as [->|M1];
    [|destruct (Ascii.eqb_spec c2 "<") as [->|M2];
      [|destruct (Ascii.eqb_spec c2 ">") as [->|M3];
        [|destruct (Ascii.eqb_spec c2 dquote) as [->|M4]]]]);
  cbn [lit list_ascii_of_string app]; intros H;
  try (injection H as ?; subst; try congruence; by split);
  try discriminate H.
Qed.

Lemma escapeChar_nonempty c : escapeChar c <> [].
Proof.
  destruct (plainChar c) eqn:E.
  - by rewrite escapeChar_plain.
  - destruct (escapeChar_special c E) as (e & -> & _). discriminate.
Qed.

Lemma escapeHtml_cons c t :
  _escapeHtml (c :: t) = escapeChar c ++ _escapeHtml t.
Proof. by rewrite !escapeHtml_flat_map. Qed.

Lemma escapeHtml_inj : forall s1 s2,
  _escapeHtml s1 = _escapeHtml s2 -> s1 = s2.
Proof.
  induction s1 as [|c1 t1 IH]; intros [|c2 t2] H.
  - reflexivity.
  - rewrite escapeHtml_cons in H.
    change (_escapeHtml []) with (@nil ascii) in H.
    symmetry in H. apply app_eq_nil in H as [H _].
    by apply escapeChar_nonempty in H.
  - rewrite escapeHtml_cons in H.
    change (_escapeHtml []) with (@nil ascii) in H.
    apply app_eq_nil in H as [H _]. by apply escapeChar_nonempty in H.
  - rewrite !escapeHtml_cons in H.
    apply escapeChar_prefix_free in H as [-> H]. f_equal. by apply IH.
Qed.

Lemma escapeHtml_plain s :
  forallb plainChar s = true -> _escapeHtml s = s.
Proof.
  induction s as [|c t IH]; [reflexivity|]. cbn [forallb].
  intros H. apply andb_true_iff in H as [Hc Ht].
  by rewrite escapeHtml_cons, escapeChar_plain, IH.
Qed.

Lemma escapeHtml_length s : length s <= length (_escapeHtml s).
Proof.
  induction s as [|c t IH]; [reflexivity|].
  rewrite escapeHtml_cons, length_app. cbn [length].
  pose proof (escapeChar_nonempty c). destruct (escapeChar c); [done|].
  cbn [length]. lia.
Qed.

Lemma escapeHtml_longer s :
  forallb plainChar s = false -> length s < length (_escapeHtml s).
Proof.
  induction s as [|c t IH]; [discriminate|]. cbn [forallb].
  rewrite escapeHtml_cons, length_app. cbn [length]. intros H.
  destruct (plainChar c) eqn:Ec.
  - rewrite escapeChar_plain by done. cbn [length]. apply IH in H. lia.
  - destruct (escapeChar_special c Ec) as (e & -> & He & _).
    pose proof (escapeHtml_length t). destruct e; [done|]. cbn [length]. lia.
Qed.

Lemma escapeHtml_keeps_special s :
  forallb plainChar s = false -> forallb plainChar (_escapeHtml s) = false.
Proof.
  induction s as [|c t IH]; [discriminate|]. cbn [forallb].
  rewrite escapeHtml_cons, forallb_app. intros H.
  destruct (plainChar c) eqn:Ec.
  - rewrite IH by exact H. apply andb_false_r.
  - destruct (escapeChar_special c Ec) as (e & -> & _). reflexivity.
Qed.

(** X1.  The escaper works piece by piece: the escaped form of two texts
    put together is their escaped forms put together. *)
Theorem escapeHtml_of_concatenation (a b : str) :
  _escapeHtml (a ++ b) = _escapeHtml a ++ _escapeHtml b.
Proof. apply escapeHtml_app. Qed.

(** X2.  The escaper loses nothing: two different texts never have the
    same escaped form. *)
Theorem escapeHtml_keeps_texts_apart (s1 s2 : str) :
  s1 <> s2 -> _escapeHtml s1 <> _escapeHtml s2.
Proof. intros Hne H. by apply Hne, escapeHtml_inj. Qed.

Lemma escapeHtml_keeps_texts_apart_witness :
  _escapeHtml (lit "<") <> _escapeHtml (lit "&lt;").
Proof. apply escapeHtml_keeps_texts_apart. discriminate. Defined.

(** X3.  The escaper returns a text as it is exactly when the text holds
    none of the four characters it replaces; in every other case the
    result is longer than the text, and escaping it a second time changes
    it again. *)
Theorem escapeHtml_changes_exactly_special_texts (s : str) :
  (_escapeHtml s = s <-> forallb plainChar s = true) /\
  (forallb plainChar s = false ->
     length s < length (_escapeHtml s) /\
     _escapeHtml (_escapeHtml s) <> _escapeHtml s).
Proof.
  assert (Hlong : forall t, forallb plainChar t = false -> _escapeHtml t <> t).
  { intros t Ht E. apply escapeHtml_longer in Ht. rewrite E in Ht. lia. }
  split; [split|].
  - intros E. destruct (forallb plainChar s) eqn:Ep; [reflexivity|].
    by apply Hlong in Ep.
  - apply escapeHtml_plain.
  - intros Hs. split; [by apply escapeHtml_longer|].
    by apply Hlong, escapeHtml_keeps_special.
Qed.

Lemma escapeHtml_changes_exactly_special_texts_witness :
  length (lit "a&b") < length (_escapeHtml (lit "a&b")) /\
  _escapeHtml (_escapeHtml (lit "a&b")) <> _escapeHtml (lit "a&b").
Proof.
  apply (proj2 (escapeHtml_changes_exactly_special_texts (lit "a&b"))).
  reflexivity.
Defined.

(** * Further properties of the normalizer and of the classifier *)

Lemma normalizeHref_allowed url : allowedScheme (_normalizeHref url) = true.
Proof.
  rewrite normalizeHref_cases. fold (allowedScheme url).
  destruct (allowedScheme url) eqn:Ea; [exact Ea|].
  unfold allowedScheme. destruct (startsWith url (lit "//")) eqn:Es.
  - change (lit "https://") with (lit "https:" ++ lit "//").
    rewrite (startsWith_app_split (lit "https:") (lit "//")).
    rewrite startsWith_app, drop_app_length, Es. cbn [andb].
    by rewrite orb_true_r.
  - by rewrite startsWith_app.
Qed.

Lemma normalizeHref_fixed url :
  allowedScheme url = true -> _normalizeHref url = url.
Proof.
  intros H. rewrite normalizeHref_cases. fold (allowedScheme url).
  by rewrite H.
Qed.

(** X4.  Whatever URL it is given, the normalizer returns an [href] that
    starts with [http://], [https://] or [file://]; it returns the URL
    itself exactly when the URL starts so already, and applying it twice
    is the same as applying it once. *)
Theorem normalizeHref_yields_allowed_scheme (url : str) :
  allowedScheme (_normalizeHref url) = true /\
  (_normalizeHref url = url <-> allowedScheme url = true) /\
  _normalizeHref (_normalizeHref url) = _normalizeHref url.
Proof.
  split; [apply normalizeHref_allowed|]. split; [split|].
  - intros E. rewrite <- E. apply normalizeHref_allowed.
  - apply normalizeHref_fixed.
  - apply normalizeHref_fixed, normalizeHref_allowed.
Qed.

Lemma isWhiteSpace_toLowerChar c :
  isWhiteSpace (toLowerChar c) = isWhiteSpace c.
Proof. destruct c as [[] [] [] [] [] [] [] []]; reflexivity. Qed.

Lemma trimStart_toLowerCase s :
  trimStart (toLowerCase s) = toLowerCase (trimStart s).
Proof.
  induction s as [|c t IH]; [reflexivity|].
  cbn [toLowerCase map trimStart]. rewrite isWhiteSpace_toLowerChar.
  destruct (isWhiteSpace c); [exact IH | reflexivity].
Qed.

Lemma trim_toLowerCase s : trim (toLowerCase s) = toLowerCase (trim s).
Proof.
  unfold trim, trimEnd. rewrite trimStart_toLowerCase.
  unfold toLowerCase at 1. rewrite <- map_rev.
  fold (toLowerCase (rev (trimStart s))).
  rewrite trimStart_toLowerCase. unfold toLowerCase. by rewrite map_rev.
Qed.

Lemma trimStart_pad ws s :
  allWhiteSpace ws = true -> trimStart (ws ++ s) = trimStart s.
Proof.
  induction ws as [|c ws IH]; [reflexivity|]. cbn [allWhiteSpace forallb].
  intros H. apply andb_true_iff in H as [Hc Hws].
  cbn [app trimStart]. rewrite Hc. by apply IH.
Qed.

Lemma allWhiteSpace_rev ws : allWhiteSpace (rev ws) = allWhiteSpace ws.
Proof.
  unfold allWhiteSpace. induction ws as [|c ws IH]; [reflexivity|].
  cbn [rev forallb]. rewrite forallb_app, IH. cbn [forallb].
  rewrite andb_true_r. apply andb_comm.
Qed.

Lemma trimEnd_pad s ws :
  allWhiteSpace ws = true -> trimEnd (s ++ ws) = trimEnd s.
Proof.
  intros H. unfold trimEnd. rewrite rev_app_distr, trimStart_pad; [done|].
  by rewrite allWhiteSpace_rev.
Qed.

Lemma trim_pad_end s ws :
  allWhiteSpace ws = true -> trim (s ++ ws) = trim s.
Proof.
  intros H. unfold trim. induction s as [|c t IH].
  - cbn [app]. rewrite <- (app_nil_r ws), trimStart_pad by exact H.
    reflexivity.
  - cbn [app trimStart]. destruct (isWhiteSpace c); [exact IH|].
    change (c :: t ++ ws) with ((c :: t) ++ ws). by apply trimEnd_pad.
Qed.

Lemma lowerUrl_of_toLowerCase u1 u2 :
  toLowerCase u1 = toLowerCase u2 ->
  toLowerCase (trim u1) = toLowerCase (trim u2).
Proof. intros H. by rewrite <- !trim_toLowerCase, H. Qed.

(** X5.  The classifier cannot be led astray by padding or by capitals:
    whitespace put in front of a URL or behind it does not change the
    answer, and two URLs that differ only in the case of their letters get
    the same answer. *)
Theorem isUrlSchemeSafe_ignores_padding_and_case :
  (forall ws1 ws2 url,
     allWhiteSpace ws1 = true -> allWhiteSpace ws2 = true ->
     _isUrlSchemeSafe (ws1 ++ url ++ ws2) = _isUrlSchemeSafe url) /\
  (forall u1 u2,
     toLowerCase u1 = toLowerCase u2 ->
     _isUrlSchemeSafe u1 = _isUrlSchemeSafe u2).
Proof.
  split.
  - intros ws1 ws2 url H1 H2. unfold _isUrlSchemeSafe.
    replace (trim (ws1 ++ url ++ ws2)) with (trim url); [reflexivity|].
    unfold trim at 2. rewrite trimStart_pad by exact H1.
    fold (trim (url ++ ws2)). symmetry. by apply trim_pad_end.
  - intros u1 u2 H. unfold _isUrlSchemeSafe.
    by rewrite (lowerUrl_of_toLowerCase u1 u2 H).
Qed.

Lemma isUrlSchemeSafe_ignores_padding_and_case_witness :
  _isUrlSchemeSafe (lit "  " ++ lit "JavaScript:alert(1)" ++ lit " ")
  = _isUrlSchemeSafe (lit "JavaScript:alert(1)") /\
  _isUrlSchemeSafe (lit "JAVASCRIPT:x") = _isUrlSchemeSafe (lit "javascript:x").
Proof.
  split.
  - apply (proj1 isUrlSchemeSafe_ignores_padding_and_case); reflexivity.
  - apply (proj2 isUrlSchemeSafe_ignores_padding_and_case). reflexivity.
Defined.

(** * Further properties of the two callbacks *)

Lemma occurrences_app c a b :
  occurrences c (a ++ b) = occurrences c a + occurrences c b.
Proof. apply count_occ_app. Qed.

Lemma occurrences_cons c x s :
  occurrences c (x :: s) = (if Ascii.eqb x c then 1 else 0) + occurrences c s.
Proof.
  unfold occurrences. cbn [count_occ].
  destruct (ascii_dec x c) as [->|N].
  - by rewrite Ascii.eqb_refl.
  - apply Ascii.eqb_neq in N. by rewrite N.
Qed.

Lemma escapeChar_no_markup c x :
  c = "<"%char \/ c = ">"%char \/ c = dquote ->
  occurrences c (escapeChar x) = 0.
Proof.
  intros Hc. unfold escapeChar.
  destruct (Ascii.eqb x "&") eqn:E1;
    [destruct Hc as [->|[->| ->]]; reflexivity|].
  destruct (Ascii.eqb x "<") eqn:E2;
    [destruct Hc as [->|[->| ->]]; reflexivity|].
  destruct (Ascii.eqb x ">") eqn:E3;
    [destruct Hc as [->|[->| ->]]; reflexivity|].
  destruct (Ascii.eqb x dquote) eqn:E4;
    [destruct Hc as [->|[->| ->]]; reflexivity|].
  rewrite occurrences_cons.
  destruct Hc as [->|[->| ->]]; by rewrite ?E2, ?E3, ?E4.
Qed.

Lemma escapeHtml_no_markup c s :
  c = "<"%char \/ c = ">"%char \/ c = dquote ->
  occurrences c (_escapeHtml s) = 0.
Proof.
  intros Hc. induction s as [|x t IH]; [reflexivity|].
  by rewrite escapeHtml_cons, occurrences_app, escapeChar_no_markup, IH.
Qed.

Lemma occurrences_anchor c h l :
  c = "<"%char \/ c = ">"%char \/ c = dquote ->
  occurrences c (anchor (_escapeHtml h) (_escapeHtml l))
  = occurrences c (anchor [] []).
Proof.
  intros Hc. unfold anchor.
  rewrite !occurrences_app, !(escapeHtml_no_markup c) by exact Hc.
  reflexivity.
Qed.

(** X6.  An anchor the callbacks build holds the markup of its template
    and no other: whatever the [href] and the label were before they were
    escaped, the anchor has two opening and two closing angle brackets and
    six double quotes, so that neither can end the attribute or the tag
    early. *)
Theorem anchor_holds_only_the_markup_of_the_template (href label : str) :
  let a := anchor (_escapeHtml href) (_escapeHtml label) in
  occurrences "<" a = 2 /\ occurrences ">" a = 2 /\ occurrences dquote a = 6.
Proof.
  cbn zeta. rewrite !occurrences_anchor by auto. by repeat split.
Qed.

Lemma escapeHtml_allowedScheme href :
  allowedScheme href = true -> allowedScheme (_escapeHtml href) = true.
Proof.
  assert (Hkeep : forall p, forallb plainChar p = true ->
            startsWith href p = true ->
            startsWith (_escapeHtml href) p = true).
  { intros p Hp H. apply startsWith_spec in H as [b ->].
    rewrite escapeHtml_app, (escapeHtml_plain p Hp). apply startsWith_app. }
  unfold allowedScheme. rewrite !orb_true_iff.
  intros [[H|H]|H]; apply Hkeep in H; try reflexivity; rewrite H; auto.
Qed.

(** X7.  What a callback returns for a match is either escaped text or
    one anchor, and the [href] of that anchor, as it is written into the
    attribute, starts with [http://], [https://] or [file://]: no other
    scheme ever reaches an [href]. *)
Theorem callbacks_emit_text_or_an_allowed_href :
  (forall title url,
     markdownLink title url = _escapeHtml title \/
     exists escapedHref,
       allowedScheme escapedHref = true /\
       markdownLink title url = anchor escapedHref (_escapeHtml title)) /\
  (forall url,
     plainUrl url = _escapeHtml (stripTrailingPunctuation url) \/
     exists escapedHref,
       allowedScheme escapedHref = true /\
       plainUrl url
       = anchor escapedHref (_escapeHtml (stripTrailingPunctuation url))).
Proof.
  split.
  - intros title url. unfold markdownLink.
    destruct (_isUrlSchemeSafe url); cbn [negb]; [right|by left].
    eexists. split; [|reflexivity].
    apply escapeHtml_allowedScheme, normalizeHref_allowed.
  - intros url. unfold plainUrl. rewrite cleanUrl_strips.
    destruct (_isUrlSchemeSafe _); cbn [negb]; [right|by left].
    eexists. split; [|reflexivity].
    apply escapeHtml_allowedScheme, normalizeHref_allowed.
Qed.

(** * Further properties of the segmenter *)

(** A lazy quantifier moves over the characters at which what follows it
    cannot match. *)
Lemma repeat_lazy_skip ic {R} a caps (k : MatchState -> option R) w :
  forall p s,
    Forall (fun c => atom_matches ic a c = true) w ->
    (forall q c t, In c w ->
       k {| prev := q; rest := c :: t; captures := caps |} = None) ->
    repeat_atom ic a false 0 None caps k p (w ++ s)
    = repeat_atom ic a false 0 None caps k (prev_after p w) s.
Proof.
  induction w as [|c w IH]; intros p s Hw Hk; [reflexivity|].
  cbn [app]. rewrite repeat_atom_unfold. cbn zeta.
  rewrite (Hk p c (w ++ s)) by (by left).
  apply Forall_cons in Hw as [Hc Hw]. rewrite Hc. cbn [may_repeat andb].
  cbn [Nat.pred one_less]. rewrite IH; [|exact Hw|].
  - by rewrite prev_after_cons.
  - intros q x t Hx. apply Hk. by right.
Qed.

(** The anchor pattern takes, where it stands, a text made of the tag
    name, attributes without closing angle bracket, and a body without
    opening angle bracket up to the closing tag. *)
Lemma match_here_anchor p attrs body s :
  is_word (head (attrs ++ lit ">")) = false ->
  includes attrs (lit ">") = false ->
  includes body (lit "<") = false ->
  match_here anchorRegex p
    (lit "<a" ++ attrs ++ lit ">" ++ body ++ lit "</a>" ++ s)
  = Some {| prev := Some ">"%char; rest := s; captures := [] |}.
Proof.
  intros Hb Hattrs Hbody. unfold match_here.
  cbn [source anchorRegex ignoreCase run Star LazyStar].
  rewrite run_Lit. cbn [rest prev captures].
  rewrite starts_startsWith, startsWith_app.
  change (length (lit "<a")) with 2. rewrite drop_app_length' by reflexivity.
  rewrite take_app_length' by reflexivity.
  change (prev_after p (lit "<a")) with (Some "a"%char).
  cbn [run rest prev captures].
  replace (head (attrs ++ lit ">" ++ body ++ lit "</a>" ++ s))
    with (head (attrs ++ lit ">")) by (by destruct attrs).
  rewrite Hb. cbn [is_word xorb]. change (isWordChar "a") with true.
  cbn [xorb].
  erewrite repeat_greedy_run.
  2:{ intros q x t Hx. cbn [run rest].
      change (lit ">") with [">"%char] in Hx.
      rewrite atom_NoneOf_one in Hx.
      cbn [atom_matches same_char]. apply negb_true_iff in Hx.
      by rewrite Hx. }
  cbn zeta. cbn [allows Nat.leb andb].
  change (lit ">" ++ body ++ lit "</a>" ++ s)
    with (">"%char :: body ++ lit "</a>" ++ s).
  rewrite (runLength_stop _ attrs ">" _ (includes_char_Forall _ _ Hattrs)
             eq_refl).
  rewrite drop_app_length. cbn [run rest prev captures atom_matches same_char].
  cbn [Ascii.eqb Bool.eqb].
  rewrite (repeat_lazy_skip false AnyChar [] _ body).
  - rewrite repeat_atom_unfold. cbn zeta. rewrite run_Lit.
    cbn [rest prev captures]. rewrite starts_startsWith, startsWith_app.
    change (length (lit "</a>")) with 4.
    rewrite drop_app_length', take_app_length' by reflexivity.
    reflexivity.
  - by apply Forall_forall.
  - intros q c t Hc. rewrite run_Lit. cbn [rest starts lit
      list_ascii_of_string same_char].
    apply includes_char_false in Hbody.
    rewrite (proj1 (Forall_forall _ _) Hbody c) by (by apply list_elem_of_In).
    reflexivity.
Qed.

(** The anchor pattern begins with two characters, so that what is in
    front of a position does not matter to it. *)
Lemma match_here_anchor_prev p q s :
  match_here anchorRegex p s = match_here anchorRegex q s.
Proof.
  unfold match_here. cbn [source anchorRegex ignoreCase run].
  rewrite !run_Lit. cbn [rest prev captures]. rewrite starts_startsWith.
  destruct (startsWith s (lit "<a")) eqn:E; [|reflexivity].
  apply startsWith_spec in E as [b ->]. reflexivity.
Qed.

Lemma scan_anchor_prev s : forall p q i,
  scan anchorRegex p s i = scan anchorRegex q s i.
Proof.
  induction s as [|c t IH]; intros p q i; cbn [scan];
    rewrite (match_here_anchor_prev p q); [reflexivity|].
  by destruct (match_here anchorRegex q (c :: t)).
Qed.

Lemma anchorParts_prev : forall fuel s p q,
  anchorParts fuel p s = anchorParts fuel q s.
Proof.
  intros [|fuel] s p q; [reflexivity|]. cbn [anchorParts].
  by rewrite (scan_anchor_prev s p q).
Qed.

Lemma anchorParts_fuel : forall n1 n2 s p,
  length s < n1 -> length s < n2 ->
  anchorParts n1 p s = anchorParts n2 p s.
Proof.
  induction n1 as [|n1 IH]; intros n2 s p H1 H2; [lia|].
  destruct n2 as [|n2]; [lia|]. cbn [anchorParts].
  destruct (scan anchorRegex p s 0) as [m|] eqn:E; [|reflexivity].
  destruct (scan_progress _ anchorRegex_nonempty _ _ _ _ E) as [_ Hl].
  rewrite (IH n2) by lia. reflexivity.
Qed.

Lemma match_here_anchor_other p c t :
  Ascii.eqb c "<" = false -> match_here anchorRegex p (c :: t) = None.
Proof.
  intros H. unfold match_here. cbn [source anchorRegex ignoreCase run].
  rewrite run_Lit. cbn [rest starts lit list_ascii_of_string same_char].
  by rewrite H.
Qed.

(** No anchor starts in a text without opening angle bracket. *)
Lemma scan_anchor_skip pre : forall s p i,
  includes pre (lit "<") = false ->
  scan anchorRegex p (pre ++ s) i = scan anchorRegex None s (i + length pre).
Proof.
  induction pre as [|c pre IH]; intros s p i H.
  - cbn. rewrite Nat.add_0_r. apply scan_anchor_prev.
  - cbn [includes startsWith lit list_ascii_of_string] in H.
    rewrite andb_true_r in H. apply orb_false_iff in H as [Hc H].
    cbn [app scan]. rewrite match_here_anchor_other by exact Hc.
    rewrite IH by exact H. f_equal. cbn. lia.
Qed.

Lemma occurrences_none_includes c s :
  occurrences c s = 0 -> includes s [c] = false.
Proof.
  induction s as [|x t IH]; [reflexivity|].
  rewrite occurrences_cons. cbn [includes startsWith].
  rewrite andb_true_r. destruct (Ascii.eqb x c); [discriminate|].
  cbn [orb Nat.add]. exact IH.
Qed.

(** The anchors the callbacks build have the shape the pattern takes. *)
Lemma built_anchor_shape href label :
  exists attrs,
    anchor (_escapeHtml href) (_escapeHtml label)
    = lit "<a" ++ attrs ++ lit ">" ++ _escapeHtml label ++ lit "</a>" /\
    is_word (head (attrs ++ lit ">")) = false /\
    includes attrs (lit ">") = false /\
    includes (_escapeHtml label) (lit "<") = false.
Proof.
  exists (lit " href=" ++ [dquote] ++ _escapeHtml href ++ [dquote]
          ++ lit " target=" ++ [dquote] ++ lit "_blank" ++ [dquote]
          ++ lit " rel=" ++ [dquote] ++ lit "noopener noreferrer"
          ++ [dquote]).
  split; [|split; [reflexivity|split]].
  - unfold anchor. rewrite <- !app_assoc. reflexivity.
  - apply occurrences_none_includes.
    rewrite !occurrences_app, (escapeHtml_no_markup ">") by auto.
    reflexivity.
  - apply occurrences_none_includes, escapeHtml_no_markup. auto.
Qed.

Lemma segments_built_anchor pre href label post :
  includes pre (lit "<") = false ->
  let a := anchor (_escapeHtml href) (_escapeHtml label) in
  segments (pre ++ a ++ post)
  = match segments post with
    | Some parts =>
        Some ((if 0 <? length pre
               then [{| text := pre; isAnchor := false |}] else [])
              ++ {| text := a; isAnchor := true |} :: parts)
    | None => None
    end.
Proof.
  intros Hpre a.
  destruct (built_anchor_shape href label) as (attrs & Ha & Hb & Hattrs & Hl).
  fold a in Ha.
  assert (Hscan : scan anchorRegex None (pre ++ a ++ post) 0
    = Some {| index := length pre; matched := a; groups := [];
              after := {| prev := Some ">"%char; rest := post;
                          captures := [] |} |}).
  { rewrite scan_anchor_skip by exact Hpre.
    assert (Hm : match_here anchorRegex None (a ++ post)
                 = Some {| prev := Some ">"%char; rest := post;
                           captures := [] |}).
    { rewrite Ha, <- !app_assoc. by apply match_here_anchor. }
    destruct (a ++ post) as [|c t] eqn:E; cbn [scan]; rewrite Hm;
      cbn [rest captures Nat.add]; do 2 f_equal.
    - apply (f_equal (@length ascii)) in E. rewrite length_app in E.
      cbn [length] in *. destruct a; [|discriminate]. reflexivity.
    - rewrite <- E, length_app.
      replace (length a + length post - length post) with (length a) by lia.
      apply take_app_length. }
  assert (Hla : 0 < length a) by (rewrite Ha, length_app; cbn; lia).
  unfold segments. cbn [anchorParts]. rewrite Hscan.
  cbn [index matched after rest prev].
  rewrite (anchorParts_prev _ post _ None).
  rewrite (anchorParts_fuel _ (S (length post)))
    by (rewrite ?length_app; lia).
  by rewrite take_app_length.
Qed.

(** X8.  An anchor the callbacks have built is one segment of the text it
    stands in: behind a start without opening angle bracket, the segments
    are that start (when it is not empty), the anchor as a whole, marked
    as an anchor, and the segments of the rest.  So the URL in its [href]
    is never seen by the plain-URL detector. *)
Theorem built_anchor_is_one_segment (pre href label post : str) :
  includes pre (lit "<") = false ->
  let a := anchor (_escapeHtml href) (_escapeHtml label) in
  segments (pre ++ a ++ post)
  = match segments post with
    | Some parts =>
        Some ((if 0 <? length pre
               then [{| text := pre; isAnchor := false |}] else [])
              ++ {| text := a; isAnchor := true |} :: parts)
    | None => None
    end.
Proof. exact (segments_built_anchor pre href label post). Qed.

Lemma built_anchor_is_one_segment_witness :
  segments (lit "see " ++ anchor (_escapeHtml (lit "http://a.b/?x&y"))
                            (_escapeHtml (lit "a <b>")) ++ lit " now")
  = Some [ {| text := lit "see "; isAnchor := false |};
           {| text := anchor (_escapeHtml (lit "http://a.b/?x&y"))
                        (_escapeHtml (lit "a <b>"));
              isAnchor := true |};
           {| text := lit " now"; isAnchor := false |} ].
Proof.
  rewrite (built_anchor_is_one_segment (lit "see ") (lit "http://a.b/?x&y")
             (lit "a <b>") (lit " now") eq_refl).
  reflexivity.
Defined.

(** * Further properties of the call as a whole *)

Lemma scan_MARKDOWN_none s p i :
  includes s (lit "[") = false -> scan MARKDOWN_LINK_REGEX p s i = None.
Proof.
  intros H. rewrite <- (app_nil_r s), scan_MARKDOWN_skip by exact H.
  reflexivity.
Qed.

Lemma replaceMarkdown_none s :
  scan MARKDOWN_LINK_REGEX None s 0 = None -> replaceMarkdown s = s.
Proof.
  intros H. unfold replaceMarkdown, replace. cbn [global MARKDOWN_LINK_REGEX].
  cbn [replace_loop]. by rewrite H.
Qed.

Lemma segments_none s :
  includes s (lit "<") = false ->
  segments s
  = Some (if 0 <? length s then [{| text := s; isAnchor := false |}] else []).
Proof.
  intros H. unfold segments. cbn [anchorParts].
  pose proof (scan_anchor_skip s [] None 0 H) as E.
  rewrite app_nil_r in E. rewrite E. reflexivity.
Qed.

Lemma replaceUrls_nil : replaceUrls [] = [].
Proof. reflexivity. Qed.

Lemma render_literal s :
  concat (map renderPart
            (if 0 <? length s then [{| text := s; isAnchor := false |}]
             else []))
  = replaceUrls s.
Proof.
  destruct s as [|c t]; [reflexivity|]. cbn [Nat.ltb Nat.leb length map concat].
  unfold renderPart. cbn [isAnchor text]. apply app_nil_r.
Qed.

(** The markdown step on a well-formed link with a safe target, behind a
    start without opening bracket. *)
Lemma replaceMarkdown_safe pre title url post :
  includes pre (lit "[") = false ->
  title <> [] -> includes title (lit "]") = false ->
  url <> [] -> includes url (lit ")") = false ->
  _isUrlSchemeSafe url = true ->
  replaceMarkdown
    (pre ++ lit "[" ++ title ++ lit "](" ++ url ++ lit ")" ++ post)
  = pre ++ anchor (_escapeHtml (_normalizeHref url)) (_escapeHtml title)
      ++ replaceMarkdown post.
Proof.
  intros Hpre Ht Hnt Hu Hnu Hsafe.
  rewrite (replaceMarkdown_step _ _
             (scan_MARKDOWN_link pre title url post None Hpre Ht Hnt Hu Hnu)).
  cbn [index after rest]. rewrite take_app_length.
  unfold group. cbn [groups find fst snd Nat.eqb].
  unfold markdownLink. by rewrite Hsafe.
Qed.

(** X9.  A text made of a start, one markdown link with a safe target and
    a rest, where start and rest hold neither an opening bracket nor an
    opening angle bracket, is rendered as the anchor built from the link,
    once and unchanged, between the start and the rest, each as the
    plain-URL detector leaves it.  (When the detector finds no token at
    all in the text of the markdown step, that text is returned.) *)
Theorem markdown_link_with_safe_target_renders_once
    (pre title url post : str) :
  includes pre (lit "[") = false -> includes pre (lit "<") = false ->
  includes post (lit "[") = false -> includes post (lit "<") = false ->
  title <> [] -> includes title (lit "]") = false ->
  url <> [] -> includes url (lit ")") = false ->
  _isUrlSchemeSafe url = true ->
  let a := anchor (_escapeHtml (_normalizeHref url)) (_escapeHtml title) in
  render (pre ++ lit "[" ++ title ++ lit "](" ++ url ++ lit ")" ++ post) true
  = Some (if fst (test URL_REGEX 0 (pre ++ a ++ post))
          then replaceUrls pre ++ a ++ replaceUrls post
          else pre ++ a ++ post).
Proof.
  intros Hpre1 Hpre2 Hpost1 Hpost2 Ht Hnt Hu Hnu Hsafe a.
  set (text := pre ++ lit "[" ++ title ++ lit "](" ++ url ++ lit ")" ++ post).
  assert (Hmd : replaceMarkdown text = pre ++ a ++ post).
  { subst text a. rewrite replaceMarkdown_safe by assumption.
    by rewrite (replaceMarkdown_none post (scan_MARKDOWN_none _ _ _ Hpost1)). }
  assert (Hhint : includes text (lit "](") = true).
  { subst text.
    replace (pre ++ lit "[" ++ title ++ lit "](" ++ url ++ lit ")" ++ post)
      with ((pre ++ lit "[" ++ title) ++ lit "](" ++ (url ++ lit ")" ++ post))
      by (by rewrite <- !app_assoc).
    apply includes_app_intro. }
  assert (Htest : fst (test MARKDOWN_LINK_REGEX 0 text) = true).
  { unfold test, exec_from. cbn [global MARKDOWN_LINK_REGEX].
    change (length text <? 0) with false.
    rewrite take_0, drop_0. subst text. by rewrite scan_MARKDOWN_link. }
  assert (Hc : exists c t, text = c :: t)
    by (subst text; destruct pre; eexists _, _; reflexivity).
  destruct Hc as (c & t & Hc). unfold render.
  rewrite Hc, transform_links, <- Hc. cbn zeta.
  rewrite Hhint, andb_false_r, Htest, Hmd.
  destruct (fst (test URL_REGEX 0 (pre ++ a ++ post))); [|reflexivity].
  subst a. rewrite (segments_built_anchor pre _ _ post Hpre2).
  rewrite (segments_none post Hpost2). cbn [option_map fst].
  rewrite map_app, concat_app. cbn [map concat].
  rewrite !render_literal. unfold renderPart at 1. cbn [isAnchor text].
  reflexivity.
Qed.

Lemma markdown_link_with_safe_target_renders_once_witness :
  render (lit "see " ++ lit "[" ++ lit "docs & more" ++ lit "]("
          ++ lit "www.a.com/x?y=1&z=2" ++ lit ")" ++ lit " now") true
  = Some (lit "see "
          ++ anchor (lit "http://www.a.com/x?y=1&amp;z=2")
                    (lit "docs &amp; more")
          ++ lit " now").
Proof.
  rewrite (markdown_link_with_safe_target_renders_once
             (lit "see ") (lit "docs & more") (lit "www.a.com/x?y=1&z=2")
             (lit " now") eq_refl eq_refl eq_refl eq_refl
             ltac:(discriminate) eq_refl ltac:(discriminate) eq_refl
             eq_refl).
  reflexivity.
Defined.

(** * Further properties of the plain-URL detector *)

Lemma starts_length ic : forall l s,
  starts ic s l = true -> length l <= length s.
Proof.
  induction l as [|x l IH]; intros s H; [cbn; lia|].
  destruct s as [|c s]; [discriminate|]. cbn [starts] in H.
  apply andb_true_iff in H as [_ H]. apply IH in H. cbn [length]. lia.
Qed.

Lemma prev_after_nonempty p q w : w <> [] -> prev_after p w = prev_after q w.
Proof.
  intros H. unfold prev_after.
  destruct (last w) eqn:E; [reflexivity|].
  apply last_None in E. contradiction.
Qed.

Lemma starts_prev ic s l p q :
  l <> [] -> starts ic s l = true ->
  prev_after p (take (length l) s) = prev_after q (take (length l) s).
Proof.
  intros Hl H. apply prev_after_nonempty. apply starts_length in H.
  destruct l; [contradiction|]. destruct s; cbn in *; [lia|discriminate].
Qed.

(** Each alternative of the pattern begins with a literal, so that what
    is in front of a position does not matter to it. *)
Lemma match_here_URL_prev p q s :
  match_here URL_REGEX p s = match_here URL_REGEX q s.
Proof.
  unfold match_here. cbn [source URL_REGEX ignoreCase run].
  rewrite !run_Lit. cbn [rest prev captures].
  destruct (starts true s (lit "http")) eqn:E1;
    [rewrite (starts_prev true s (lit "http") p q ltac:(discriminate) E1)|];
  (destruct (starts true s (lit "file")) eqn:E2;
    [rewrite (starts_prev true s (lit "file") p q ltac:(discriminate) E2)|]);
  (destruct (starts true s (lit "www.")) eqn:E3;
    [rewrite (starts_prev true s (lit "www.") p q ltac:(discriminate) E3)|]);
  reflexivity.
Qed.

Lemma scan_URL_prev s : forall p q i,
  scan URL_REGEX p s i = scan URL_REGEX q s i.
Proof.
  induction s as [|c t IH]; intros p q i; cbn [scan];
    rewrite (match_here_URL_prev p q); [reflexivity|].
  by destruct (match_here URL_REGEX q (c :: t)).
Qed.

Lemma replace_loop_URL_prev f : forall fuel s p q,
  replace_loop fuel URL_REGEX f p s = replace_loop fuel URL_REGEX f q s.
Proof.
  intros [|fuel] s p q; [reflexivity|]. cbn [replace_loop].
  by rewrite (scan_URL_prev s p q).
Qed.

Lemma runLength_run f a rest0 :
  Forall (fun x => f x = true) a ->
  match rest0 with [] => True | c :: _ => f c = false end ->
  runLength f (a ++ rest0) = length a.
Proof.
  intros Ha He. destruct rest0 as [|c t].
  - rewrite app_nil_r. induction Ha as [|x a Hx Ha IH]; [reflexivity|].
    cbn. by rewrite Hx, IH.
  - by apply runLength_stop.
Qed.

Lemma run_token_body p body rest0 caps :
  nonSpaces body -> 1 <= length body <= 2000 -> atTokenEnd rest0 ->
  run true (Between 1 2000 NonSpace)
      {| prev := p; rest := body ++ rest0; captures := caps |}
      (fun st => run true before_space_or_end st Some)
  = Some {| prev := prev_after p body; rest := rest0; captures := caps |}.
Proof.
  intros Hb Hl He. unfold Between. cbn [run prev rest captures].
  erewrite repeat_greedy_run.
  2:{ intros q c t Hc. unfold before_space_or_end.
      cbn [run rest atom_matches] in *.
      destruct (isWhiteSpace c); [discriminate|reflexivity]. }
  cbn zeta.
  rewrite (runLength_run _ body rest0).
  - rewrite (proj2 (Nat.leb_le 1 (length body))) by lia.
    cbn [allows]. rewrite (proj2 (Nat.leb_le (length body) 2000)) by lia.
    cbn [andb]. rewrite take_app_length, drop_app_length.
    unfold before_space_or_end. cbn [run rest].
    destruct rest0 as [|c t]; cbn [atom_matches]; [reflexivity|].
    cbn in He. by rewrite He.
  - eapply Forall_impl; [exact Hb|]. cbn. intros x ->. reflexivity.
  - destruct rest0 as [|c t]; [exact I|]. cbn in *. by rewrite He.
Qed.

(** The detector takes a token where it stands, up to its end. *)
Lemma match_here_URL_complete p prefix body rest0 :
  isUrlPrefix prefix -> nonSpaces body -> 1 <= length body <= 2000 ->
  atTokenEnd rest0 ->
  match_here URL_REGEX p (prefix ++ body ++ rest0)
  = Some {| prev := prev_after None body; rest := rest0; captures := [] |}.
Proof.
  intros (q & Hq & Hf) Hb Hl He.
  assert (Hprev : forall x, prev_after x body = prev_after None body).
  { intros x. apply prev_after_nonempty. destruct body; cbn in *; [lia|done]. }
  cbn in Hq. destruct Hq as [<-|[<-|[<-|[<-|[]]]]];
    prefix_chars Hf prefix; unfold match_here;
    cbn [source URL_REGEX ignoreCase run];
    do 3 (rewrite ?run_Lit, ?run_Opt;
          cbn [rest prev captures app starts lit list_ascii_of_string];
          eval_same_char; cbn [andb length firstn skipn];
          rewrite ?take_0, ?drop_0);
    rewrite run_token_body by assumption; by rewrite Hprev.
Qed.

Lemma replaceUrls_step s m :
  scan URL_REGEX None s 0 = Some m ->
  replaceUrls s
  = take (index m) s ++ plainUrl (matched m) ++ replaceUrls (rest (after m)).
Proof.
  intros H.
  destruct (scan_progress URL_REGEX eq_refl _ _ _ _ H) as [Hne Hl].
  unfold replaceUrls at 1, replace. cbn [global URL_REGEX].
  cbn [replace_loop]. rewrite H. do 2 f_equal.
  destruct (matched m) as [|c0 t0]; [done|].
  rewrite (replace_loop_URL_prev _ _ _ _ None).
  unfold replaceUrls, replace. cbn [global URL_REGEX].
  apply replace_loop_fuel; lia.
Qed.

Lemma scan_URL_token p w rest0 i :
  urlToken w rest0 ->
  scan URL_REGEX p (w ++ rest0) i
  = Some {| index := i; matched := w; groups := [];
            after := {| prev := last w; rest := rest0; captures := [] |} |}.
Proof.
  intros (prefix & body & -> & Hp & Hl & Hb & He).
  assert (Hm := match_here_URL_complete p prefix body rest0 Hp Hb Hl He).
  assert (Hlast : prev_after None body = last (prefix ++ body)).
  { unfold prev_after. rewrite last_app.
    destruct (last body) eqn:E; [reflexivity|].
    apply last_None in E. subst body. cbn in Hl. lia. }
  rewrite <- app_assoc in *.
  destruct (prefix ++ body ++ rest0) as [|c t] eqn:E; cbn [scan]; rewrite Hm;
    cbn [rest captures]; rewrite <- E, Hlast; do 2 f_equal.
  - apply (f_equal (@length ascii)) in E. rewrite !length_app in E.
    cbn in E. lia.
  - rewrite app_assoc, length_app.
    replace (length (prefix ++ body) + length rest0 - length rest0)
      with (length (prefix ++ body)) by lia.
    apply take_app_length.
Qed.

(** X10.  The plain-URL detector takes a token where it stands, and in
    whole: in front of a text [rest0], a prefix and 1 to 2000 characters
    that are not whitespace, up to whitespace or the end, are the match
    found at that very position, and the replacement puts the result of
    the callback on the token in front of the replacement of [rest0]. *)
Theorem url_token_is_taken_whole (p : option ascii) (w rest0 : str)
    (i : nat) :
  urlToken w rest0 ->
  scan URL_REGEX p (w ++ rest0) i
  = Some {| index := i; matched := w; groups := [];
            after := {| prev := last w; rest := rest0; captures := [] |} |}
  /\ replaceUrls (w ++ rest0) = plainUrl w ++ replaceUrls rest0.
Proof.
  intros Hw. split; [by apply scan_URL_token|].
  rewrite (replaceUrls_step _ _ (scan_URL_token None w rest0 0 Hw)).
  cbn [index matched after rest]. by rewrite take_0.
Qed.

Lemma url_token_is_taken_whole_witness :
  replaceUrls (lit "HTTPS://a.b/c?d," ++ lit " and more")
  = plainUrl (lit "HTTPS://a.b/c?d,") ++ replaceUrls (lit " and more").
Proof.
  refine (proj2 (url_token_is_taken_whole None (lit "HTTPS://a.b/c?d,")
                   (lit " and more") 0 _)).
  exists (lit "HTTPS://"), (lit "a.b/c?d,").
  split; [reflexivity|]. split.
  - exists (lit "https://"). split; [cbn; auto|reflexivity].
  - split; [cbn; lia|]. split; [repeat constructor|reflexivity].
Defined.

(** X11.  A text that begins with a token of the detector, holds one of
    the two hints, and holds neither an opening bracket nor an opening
    angle bracket is rendered as the result of the callback on the token,
    followed by the rest with its own tokens replaced. *)
Theorem text_with_leading_url_token_renders (w rest0 : str) :
  urlToken w rest0 ->
  includes (w ++ rest0) (lit "://") || includes (w ++ rest0) (lit "www.")
    = true ->
  includes (w ++ rest0) (lit "[") = false ->
  includes (w ++ rest0) (lit "<") = false ->
  render (w ++ rest0) true = Some (plainUrl w ++ replaceUrls rest0).
Proof.
  intros Hw Hhint Hmd Hlt.
  assert (Hscan := scan_URL_token None w rest0 0 Hw).
  assert (Hc : exists c t, w ++ rest0 = c :: t).
  { destruct (w ++ rest0) eqn:E; [discriminate|by eexists _, _]. }
  destruct Hc as (c & t & Hc). unfold render.
  rewrite Hc, transform_links, <- Hc. cbn zeta.
  rewrite Hhint. cbn [negb andb].
  assert (Htmd : fst (test MARKDOWN_LINK_REGEX 0 (w ++ rest0)) = false).
  { unfold test, exec_from. cbn [global MARKDOWN_LINK_REGEX].
    change (length (w ++ rest0) <? 0) with false.
    rewrite take_0, drop_0. by rewrite scan_MARKDOWN_none. }
  assert (Hturl : fst (test URL_REGEX 0 (w ++ rest0)) = true).
  { unfold test, exec_from. cbn [global URL_REGEX].
    change (length (w ++ rest0) <? 0) with false.
    rewrite take_0, drop_0. cbn [last]. by rewrite Hscan. }
  rewrite Htmd, Hturl, (segments_none _ Hlt). cbn [option_map fst].
  rewrite render_literal, (replaceUrls_step _ _ Hscan).
  cbn [index matched after rest]. by rewrite take_0.
Qed.

Lemma text_with_leading_url_token_renders_witness :
  render (lit "www.a.com/x?y=1&z=2." ++ lit " is down") true
  = Some (anchor (lit "http://www.a.com/x?y=1&amp;z=2")
                 (lit "www.a.com/x?y=1&amp;z=2")
          ++ lit " is down").
Proof.
  rewrite (text_with_leading_url_token_renders
             (lit "www.a.com/x?y=1&z=2.") (lit " is down")).
  - reflexivity.
  - exists (lit "www."), (lit "a.com/x?y=1&z=2.").
    split; [reflexivity|]. split.
    + exists (lit "www."). split; [cbn; auto|reflexivity].
    + split; [cbn; lia|]. split; [repeat constructor|reflexivity].
  - reflexivity.
  - reflexivity.
  - reflexivity.
Defined.

(** * Further properties of the title service *)

Lemma sound_empty w : sound w empty.
Proof.
  split; [|split; [|split]]; cbn.
  - intros url f H. by rewrite lookup_empty in H.
  - intros url [].
  - intros url [H|H]; rewrite lookup_empty in H; by destruct H.
  - intros url t H. by rewrite lookup_empty in H.
Qed.

Lemma sound_fetchTitle w σ url fallbackTitle :
  sound w σ -> sound w (snd (fetchTitle w σ url fallbackTitle)).
Proof.
  intros (H1 & H2 & H3 & H4). unfold fetchTitle.
  destruct (startsWith url (lit "file://")) eqn:Hf; [done|].
  destruct (_cache σ !! url) eqn:Ec; [done|].
  destruct (_pendingRequests σ !! url) as [[f|t]|] eqn:Ep; [done|done|].
  destruct (request w url) as [|promise] eqn:Er; cbn [snd];
    (split; [|split; [|split]]); cbn [_cache _pendingRequests requested].
  - intros u f Hu. destruct (decide (u = url)) as [->|Hne].
    + by rewrite lookup_insert_eq in Hu.
    + rewrite lookup_insert_ne by done.
      rewrite lookup_insert_ne, lookup_delete_ne in Hu by done.
      by apply (H1 u f).
  - intros u [<-|Hu]; [done|by apply H2].
  - intros u Hu. destruct (decide (u = url)) as [->|Hne]; [by left|].
    right. apply H3.
    by rewrite !lookup_insert_ne, lookup_delete_ne in Hu by done.
  - intros u t Hu. destruct (decide (u = url)) as [->|Hne]; [done|].
    rewrite lookup_insert_ne, lookup_delete_ne in Hu by done.
    by apply (H4 u t).
  - intros u f Hu. destruct (decide (u = url)) as [->|Hne]; [done|].
    rewrite lookup_insert_ne in Hu by done. by apply (H1 u f).
  - intros u [<-|Hu]; [done|by apply H2].
  - intros u Hu. destruct (decide (u = url)) as [->|Hne]; [by left|].
    right. apply H3. by rewrite lookup_insert_ne in Hu by done.
  - intros u t Hu. destruct (decide (u = url)) as [->|Hne].
    + by rewrite lookup_insert_eq in Hu.
    + rewrite lookup_insert_ne in Hu by done. by apply (H4 u t).
Qed.

Lemma sound_settle w σ url r σ' :
  sound w σ -> settle w σ url = Some (r, σ') -> sound w σ'.
Proof.
  intros (H1 & H2 & H3 & H4). unfold settle.
  destruct (_pendingRequests σ !! url) as [[f|t]|] eqn:Ep; [|done|done].
  intros [= <- <-].
  split; [|split; [|split]]; cbn [_cache _pendingRequests requested].
  - intros u g Hu. destruct (decide (u = url)) as [->|Hne].
    + by rewrite lookup_delete_eq in Hu.
    + rewrite lookup_delete_ne in Hu by done.
      rewrite lookup_insert_ne by done. by apply (H1 u g).
  - exact H2.
  - intros u Hu. apply H3. destruct (decide (u = url)) as [->|Hne].
    + right. by rewrite Ep.
    + by rewrite lookup_insert_ne, lookup_delete_ne in Hu by done.
  - intros u t Hu. destruct (decide (u = url)) as [->|Hne].
    + by rewrite lookup_delete_eq in Hu.
    + rewrite lookup_delete_ne in Hu by done. by apply (H4 u t).
Qed.

Lemma sound_clearCache w σ : sound w σ -> sound w (clearCache σ).
Proof.
  intros (H1 & H2 & H3 & H4). split; [|split; [|split]];
    cbn [clearCache _cache _pendingRequests requested].
  - intros u f Hu. apply lookup_empty.
  - exact H2.
  - intros u [Hu|Hu]; [rewrite lookup_empty in Hu; by destruct Hu|].
    apply H3. by right.
  - exact H4.
Qed.

Lemma sound_step w σ e : sound w σ -> sound w (step w σ e).
Proof.
  intros H. destruct e as [url fb|url|]; cbn [step].
  - by apply sound_fetchTitle.
  - destruct (settle w σ url) as [[r σ']|] eqn:E; [|exact H].
    by eapply sound_settle.
  - by apply sound_clearCache.
Qed.

Lemma sound_history w events : forall σ,
  sound w σ -> sound w (history w σ events).
Proof.
  induction events as [|e events IH]; intros σ H; [exact H|].
  apply IH, sound_step, H.
Qed.

Lemma requestedOnce_step w σ e :
  sound w σ -> requestedOnce σ -> withoutClear [e] = true ->
  requestedOnce (step w σ e).
Proof.
  intros (H1 & H2 & H3 & H4) (N1 & N2) He.
  destruct e as [url fb|url|]; [| |discriminate]; cbn [step].
  - unfold fetchTitle.
    destruct (startsWith url (lit "file://")); [done|].
    destruct (_cache σ !! url) eqn:Ec; [done|].
    destruct (_pendingRequests σ !! url) as [[f|t]|] eqn:Ep; [done|done|].
    assert (Hnew : ~ url ∈ requested σ).
    { intros Hin%list_elem_of_In.
      destruct (N2 _ Hin) as [H|H]; [rewrite Ec in H|rewrite Ep in H];
        by destruct H. }
    destruct (request w url); cbn [snd]; split;
      cbn [_cache _pendingRequests requested];
      try (by constructor).
    + intros u [<-|Hu]; [left; by rewrite lookup_insert_eq|].
      destruct (decide (u = url)) as [->|Hne];
        [left; by rewrite lookup_insert_eq|].
      rewrite !lookup_insert_ne, lookup_delete_ne by done. by apply N2.
    + intros u [<-|Hu]; [right; by rewrite lookup_insert_eq|].
      destruct (decide (u = url)) as [->|Hne];
        [right; by rewrite lookup_insert_eq|].
      rewrite lookup_insert_ne by done. by apply N2.
  - unfold settle.
    destruct (_pendingRequests σ !! url) as [[f|t]|] eqn:Ep; [|done|done].
    split; cbn [_cache _pendingRequests requested]; [exact N1|].
    intros u Hu. destruct (decide (u = url)) as [->|Hne].
    + left. by rewrite lookup_insert_eq.
    + rewrite lookup_insert_ne, lookup_delete_ne by done. by apply N2.
Qed.

Lemma requestedOnce_history w events : forall σ,
  sound w σ -> requestedOnce σ -> withoutClear events = true ->
  requestedOnce (history w σ events).
Proof.
  induction events as [|e events IH]; intros σ Hs Hr Hc; [exact Hr|].
  cbn [withoutClear forallb] in Hc. apply andb_true_iff in Hc as [He Hc].
  cbn [history fold_left]. apply IH; [by apply sound_step| |exact Hc].
  apply requestedOnce_step; [exact Hs|exact Hr|].
  cbn [withoutClear forallb]. by rewrite He.
Qed.

Lemma cached_step w σ e url title :
  sound w σ -> _cache σ !! url = Some title ->
  withoutClear [e] = true ->
  _cache (step w σ e) !! url = Some title
  /\ timesRequested (step w σ e) url = timesRequested σ url.
Proof.
  intros (H1 & H2 & H3 & H4) Hc He.
  destruct e as [u fb|u|]; [| |discriminate]; cbn [step].
  - unfold fetchTitle.
    destruct (startsWith u (lit "file://")); [done|].
    destruct (_cache σ !! u) eqn:Ec; [done|].
    destruct (_pendingRequests σ !! u) as [[f|t]|] eqn:Ep; [done|done|].
    assert (Hne : url <> u) by (intros ->; congruence).
    destruct (request w u); cbn [snd _cache requested];
      (split; [|unfold timesRequested; cbn [requested];
                by rewrite count_occ_cons_neq]).
    + by rewrite lookup_insert_ne.
    + exact Hc.
  - unfold settle.
    destruct (_pendingRequests σ !! u) as [[f|t]|] eqn:Ep; [|done|done].
    cbn [_cache requested]. split; [|reflexivity].
    rewrite lookup_insert_ne; [exact Hc|]. intros ->.
    rewrite (H1 _ _ Ep) in Hc. discriminate.
Qed.

Lemma cached_history w events : forall σ url title,
  sound w σ -> _cache σ !! url = Some title ->
  withoutClear events = true ->
  _cache (history w σ events) !! url = Some title
  /\ timesRequested (history w σ events) url = timesRequested σ url.
Proof.
  induction events as [|e events IH]; intros σ url title Hs Hc Hw; [done|].
  cbn [withoutClear forallb] in Hw. apply andb_true_iff in Hw as [He Hw].
  assert (He' : withoutClear [e] = true)
    by (cbn [withoutClear forallb]; by rewrite He).
  destruct (cached_step w σ e url title Hs Hc He') as [Hc1 Hn1].
  cbn [history fold_left].
  destruct (IH (step w σ e) url title (sound_step w σ e Hs) Hc1 Hw)
    as [Hc2 Hn2].
  split; [exact Hc2|]. by rewrite <- Hn1.
Qed.

Lemma history_app w σ events1 events2 :
  history w σ (events1 ++ events2) = history w (history w σ events1) events2.
Proof. apply fold_left_app. Qed.

(** A promise fulfilled inside its call stays where it is, whatever
    happens, and the cache holds its title or nothing for the URL. *)
Lemma done_step w σ e url title :
  _pendingRequests σ !! url = Some (Done title) ->
  (_cache σ !! url = None \/ _cache σ !! url = Some title) ->
  _pendingRequests (step w σ e) !! url = Some (Done title)
  /\ (_cache (step w σ e) !! url = None
      \/ _cache (step w σ e) !! url = Some title)
  /\ timesRequested (step w σ e) url = timesRequested σ url.
Proof.
  intros Hp Hc. destruct e as [u fb|u|]; cbn [step].
  - unfold fetchTitle.
    destruct (startsWith u (lit "file://")); [done|].
    destruct (_cache σ !! u) eqn:Ec; [done|].
    destruct (_pendingRequests σ !! u) as [[f|t]|] eqn:Ep; [done|done|].
    assert (Hne : url <> u) by (intros ->; congruence).
    destruct (request w u); cbn [snd _cache _pendingRequests requested];
      (split; [|split; [|unfold timesRequested; cbn [requested];
                         by rewrite count_occ_cons_neq]]).
    + by rewrite lookup_insert_ne, lookup_delete_ne.
    + by rewrite lookup_insert_ne.
    + by rewrite lookup_insert_ne.
    + exact Hc.
  - unfold settle.
    destruct (_pendingRequests σ !! u) as [[f|t]|] eqn:Ep; [|done|done].
    assert (Hne : url <> u) by (intros ->; congruence).
    cbn [_cache _pendingRequests requested].
    split; [by rewrite lookup_delete_ne|]. split; [|reflexivity].
    by rewrite lookup_insert_ne.
  - cbn [clearCache _cache _pendingRequests requested].
    split; [exact Hp|]. split; [left; apply lookup_empty|reflexivity].
Qed.

Lemma done_history w events : forall σ url title,
  _pendingRequests σ !! url = Some (Done title) ->
  (_cache σ !! url = None \/ _cache σ !! url = Some title) ->
  _pendingRequests (history w σ events) !! url = Some (Done title)
  /\ (_cache (history w σ events) !! url = None
      \/ _cache (history w σ events) !! url = Some title)
  /\ timesRequested (history w σ events) url = timesRequested σ url.
Proof.
  induction events as [|e events IH]; intros σ url title Hp Hc; [done|].
  destruct (done_step w σ e url title Hp Hc) as (Hp1 & Hc1 & Hn1).
  cbn [history fold_left].
  destruct (IH (step w σ e) url title Hp1 Hc1) as (Hp2 & Hc2 & Hn2).
  split; [exact Hp2|]. split; [exact Hc2|]. by rewrite <- Hn1.
Qed.

(** X12.  Whatever calls of [fetchTitle], settlements and calls of
    [clearCache] the service has seen since it was made, in any order: no
    URL is cached while its request is under way, no request was ever
    made for a [file://] URL, a request was made for every URL that is
    cached or kept in [_pendingRequests], and a promise that was fulfilled
    inside its call is kept only for a URL whose request throws.  (Such a
    promise is kept beside the cached title: it is stored after [finally]
    has run.) *)
Theorem service_keeps_cache_and_waiting_apart (w : World)
    (events : list Event) :
  let σ := history w empty events in
  (forall url fallbackTitle,
     _pendingRequests σ !! url = Some (InFlight fallbackTitle) ->
     _cache σ !! url = None) /\
  (forall url,
     In url (requested σ) -> startsWith url (lit "file://") = false) /\
  (forall url,
     is_Some (_cache σ !! url) \/ is_Some (_pendingRequests σ !! url) ->
     In url (requested σ)) /\
  (forall url title,
     _pendingRequests σ !! url = Some (Done title) ->
     request w url = Throws).
Proof. exact (sound_history w events empty (sound_empty w)). Qed.

(** X13.  As long as [clearCache] is not called, the service makes the
    request at most once for a URL, however often and with whatever
    fallback [fetchTitle] is called for it, and every URL it has made the
    request for is cached or kept in [_pendingRequests]. *)
Theorem service_requests_each_url_once (w : World) (events : list Event) :
  withoutClear events = true ->
  let σ := history w empty events in
  NoDup (requested σ) /\
  (forall url,
     In url (requested σ) ->
     is_Some (_cache σ !! url) \/ is_Some (_pendingRequests σ !! url)).
Proof.
  intros Hw. apply requestedOnce_history; [apply sound_empty| |exact Hw].
  split; [constructor|]. intros url [].
Qed.

Lemma service_requests_each_url_once_witness :
  NoDup (requested
           (history offline empty
              [Call (lit "http://a.b") (lit "a");
               Call (lit "http://a.b") (lit "b");
               Settles (lit "http://a.b"); Call (lit "http://a.b") (lit "c");
               Call (lit "http://c.d") (lit "d")])).
Proof.
  refine (proj1 (service_requests_each_url_once offline _ _)). reflexivity.
Defined.

(** X14.  A title once cached stays: after any further calls and
    settlements without [clearCache], a call for the URL is answered at
    once with that title, whatever its fallback, the state is left as it
    is, and no further request was made for the URL. *)
Theorem cached_title_is_final (w : World) (before later : list Event)
    (url title fallbackTitle : str) :
  _cache (history w empty before) !! url = Some title ->
  withoutClear later = true ->
  let σ := history w empty (before ++ later) in
  fetchTitle w σ url fallbackTitle = (Resolves title, σ) /\
  timesRequested σ url
  = timesRequested (history w empty before) url.
Proof.
  intros Hc Hw σ. subst σ. rewrite history_app.
  pose proof (sound_history w before empty (sound_empty w)) as Hs.
  destruct (cached_history w later _ url title Hs Hc Hw) as [Hc' Hn].
  split; [|exact Hn].
  pose proof (sound_history w later _ Hs) as (H1 & H2 & H3 & H4).
  unfold fetchTitle. rewrite H2 by (apply H3; left; by rewrite Hc').
  by rewrite Hc'.
Qed.

Lemma cached_title_is_final_witness :
  fetchTitle offline
    (history offline empty
       ([Call (lit "http://a.b/c") (lit "c"); Settles (lit "http://a.b/c")]
        ++ [Call (lit "http://x.y") (lit "y");
            Call (lit "http://a.b/c") (lit "other")]))
    (lit "http://a.b/c") (lit "third")
  = (Resolves (lit "c"),
     history offline empty
       ([Call (lit "http://a.b/c") (lit "c"); Settles (lit "http://a.b/c")]
        ++ [Call (lit "http://x.y") (lit "y");
            Call (lit "http://a.b/c") (lit "other")])).
Proof.
  refine (proj1 (cached_title_is_final offline _ _ _ _ _ _ _));
    reflexivity.
Defined.

(** X18.  When the request throws inside the call that makes it, the
    call hands back the fallback, the fallback is cached, and the promise,
    fulfilled already, is stored in [_pendingRequests] after [finally] has
    run, so that nothing removes it any more.  Whatever happens then,
    calls of [clearCache] included, every call for the URL is handed that
    first fallback and the request is never made again. *)
Theorem request_that_throws_is_never_made_again (w : World) (σ : Service)
    (url fallbackTitle : str) (events : list Event) :
  startsWith url (lit "file://") = false ->
  _cache σ !! url = None -> _pendingRequests σ !! url = None ->
  request w url = Throws ->
  exists σ1,
    fetchTitle w σ url fallbackTitle = (Resolves fallbackTitle, σ1) /\
    _cache σ1 !! url = Some fallbackTitle /\
    let σ2 := history w σ1 events in
    _pendingRequests σ2 !! url = Some (Done fallbackTitle) /\
    timesRequested σ2 url = timesRequested σ1 url /\
    forall other,
      fetchTitle w σ2 url other = (Resolves fallbackTitle, σ2).
Proof.
  intros Hf Hc Hp Hr. unfold fetchTitle at 1. rewrite Hf, Hc, Hp, Hr.
  eexists. split; [reflexivity|].
  split; [cbn [_cache]; apply lookup_insert_eq|].
  match goal with |- context [history w ?s events] => set (σ1 := s) end.
  destruct (done_history w events σ1 url fallbackTitle)
    as (Hp2 & Hc2 & Hn2).
  { subst σ1. cbn [_pendingRequests]. apply lookup_insert_eq. }
  { right. subst σ1. cbn [_cache]. apply lookup_insert_eq. }
  cbn zeta. split; [exact Hp2|]. split; [exact Hn2|].
  intros other. unfold fetchTitle. rewrite Hf, Hp2.
  by destruct Hc2 as [->| ->].
Qed.

Lemma request_that_throws_is_never_made_again_witness :
  exists σ1,
    fetchTitle throwing empty (lit "http://a.b/c") (lit "c")
    = (Resolves (lit "c"), σ1) /\
    forall other,
      fetchTitle throwing (history throwing σ1 [Clear]) (lit "http://a.b/c")
        other
      = (Resolves (lit "c"), history throwing σ1 [Clear]).
Proof.
  destruct (request_that_throws_is_never_made_again throwing empty
              (lit "http://a.b/c") (lit "c") [Clear]
              eq_refl eq_refl eq_refl eq_refl)
    as (σ1 & H1 & _ & _ & _ & H2).
  by exists σ1.
Defined.

(** * Further properties of the title extraction *)

Lemma same_char_lt c : same_char true c "<" = Ascii.eqb c "<".
Proof. destruct c as [[] [] [] [] [] [] [] []]; reflexivity. Qed.

Lemma same_char_gt c : same_char true c ">" = Ascii.eqb c ">".
Proof. destruct c as [[] [] [] [] [] [] [] []]; reflexivity. Qed.

Lemma starts_fold l : forall a s,
  foldCase a = foldCase l -> starts true (a ++ s) l = true.
Proof.
  induction l as [|x l IH]; intros a s H; [reflexivity|].
  destruct a as [|c a]; [discriminate|]. cbn [foldCase map] in H.
  injection H as Hc H. cbn [app starts same_char].
  rewrite Hc, Ascii.eqb_refl. by apply IH.
Qed.

Lemma foldCase_length a l : foldCase a = foldCase l -> length a = length l.
Proof.
  intros H. apply (f_equal (@length ascii)) in H.
  unfold foldCase in H. by rewrite !length_map in H.
Qed.

(** A literal under the [i] flag takes a text that differs from it in
    the case of its letters only. *)
Lemma run_Lit_fold {R} l a p s caps (k : MatchState -> option R) :
  foldCase a = foldCase l ->
  run true (Lit l) {| prev := p; rest := a ++ s; captures := caps |} k
  = k {| prev := prev_after p a; rest := s; captures := caps |}.
Proof.
  intros H. rewrite run_Lit. cbn [rest prev captures].
  rewrite (starts_fold l a s H), <- (foldCase_length a l H).
  by rewrite take_app_length, drop_app_length.
Qed.

(** A pattern that begins with an opening angle bracket matches at such
    a bracket only. *)
Lemma match_here_needs_lt re x l r p c t :
  source re = Seq (Lit ("<"%char :: x :: l)) r -> ignoreCase re = true ->
  Ascii.eqb c "<" = false -> match_here re p (c :: t) = None.
Proof.
  intros Hs Hi Hc. unfold match_here. rewrite Hs, Hi. cbn [run].
  rewrite run_Lit. cbn [rest starts]. by rewrite same_char_lt, Hc.
Qed.

Lemma scan_needs_lt re x l r :
  source re = Seq (Lit ("<"%char :: x :: l)) r -> ignoreCase re = true ->
  forall pre s p i,
    includes pre (lit "<") = false ->
    scan re p (pre ++ s) i = scan re (prev_after p pre) s (i + length pre).
Proof.
  intros Hs Hi. induction pre as [|c pre IH]; intros s p i H.
  - cbn. by rewrite Nat.add_0_r.
  - cbn [includes startsWith lit list_ascii_of_string] in H.
    rewrite andb_true_r in H. apply orb_false_iff in H as [Hc H].
    cbn [app scan].
    rewrite (match_here_needs_lt re x l r _ _ _ Hs Hi Hc).
    rewrite IH by exact H. rewrite prev_after_cons. f_equal. cbn. lia.
Qed.

Lemma scan_lacks_lt re x l r s p i :
  source re = Seq (Lit ("<"%char :: x :: l)) r -> ignoreCase re = true ->
  includes s (lit "<") = false -> scan re p s i = None.
Proof.
  intros Hs Hi H. rewrite <- (app_nil_r s).
  rewrite (scan_needs_lt re x l r Hs Hi) by exact H.
  cbn [scan]. unfold match_here. rewrite Hs, Hi. cbn [run].
  by rewrite run_Lit.
Qed.

Lemma match_here_titleTag p opening attrs t closing s :
  foldCase opening = foldCase (lit "<title") ->
  includes attrs (lit ">") = false ->
  t <> [] -> includes t (lit "<") = false ->
  foldCase closing = foldCase (lit "</title>") ->
  exists e,
    match_here titleTag p
      (opening ++ attrs ++ lit ">" ++ t ++ closing ++ s) = Some e
    /\ rest e = s /\ captures e = [(1, t)].
Proof.
  intros Ho Hattrs Ht Hlt Hc. unfold match_here.
  cbn [source titleTag ignoreCase run].
  rewrite (run_Lit_fold _ _ _ _ _ _ Ho). cbn [run rest prev captures Star].
  erewrite repeat_greedy_run.
  2:{ intros q x u Hx. cbn [run rest atom_matches].
      cbn [atom_matches existsb lit list_ascii_of_string] in Hx.
      rewrite same_char_gt in *. rewrite orb_false_r in Hx.
      apply negb_true_iff in Hx. by rewrite Hx. }
  cbn zeta. cbn [allows Nat.leb andb].
  change (lit ">" ++ t ++ closing ++ s) with (">"%char :: t ++ closing ++ s).
  rewrite (runLength_stop _ attrs ">" _).
  2:{ eapply Forall_impl; [exact (includes_char_false _ _ Hattrs)|].
      intros x Hx. cbn [atom_matches existsb lit list_ascii_of_string].
      cbn beta in Hx. by rewrite same_char_gt, Hx. }
  2:{ reflexivity. }
  rewrite drop_app_length, take_app_length.
  cbn [run rest prev captures atom_matches]. rewrite same_char_gt.
  cbn [Ascii.eqb Bool.eqb]. cbn [Plus run rest prev captures].
  destruct closing as [|c0 closing]; [discriminate|].
  assert (Hc0 : c0 = "<"%char).
  { cbn [foldCase map lit list_ascii_of_string] in Hc. injection Hc as Hc _.
    pose proof (same_char_lt c0) as E. cbn [same_char] in E.
    rewrite Hc, Ascii.eqb_refl in E. symmetry in E.
    by apply Ascii.eqb_eq in E. }
  erewrite repeat_greedy_run.
  2:{ intros q x u Hx. rewrite run_Lit. cbn [rest starts lit
        list_ascii_of_string].
      cbn [atom_matches existsb lit list_ascii_of_string] in Hx.
      rewrite same_char_lt in *. rewrite orb_false_r in Hx.
      apply negb_true_iff in Hx. by rewrite Hx. }
  cbn zeta. cbn [allows].
  change ((c0 :: closing) ++ s) with (c0 :: closing ++ s).
  rewrite (runLength_stop _ t c0 _).
  2:{ eapply Forall_impl; [exact (includes_char_false _ _ Hlt)|].
      intros x Hx. cbn [atom_matches existsb lit list_ascii_of_string].
      cbn beta in Hx. by rewrite same_char_lt, Hx. }
  2:{ subst c0. reflexivity. }
  rewrite drop_app_length, take_app_length.
  replace (1 <=? length t) with true
    by (destruct t; [contradiction|reflexivity]).
  cbn [andb rest prev captures].
  change (c0 :: closing ++ s) with ((c0 :: closing) ++ s).
  rewrite (run_Lit_fold _ _ _ _ _ _ Hc).
  eexists. split; [reflexivity|]. cbn [rest captures]. split; [reflexivity|].
  do 2 f_equal. rewrite length_app.
  replace (length t + length ((c0 :: closing) ++ s)
           - length ((c0 :: closing) ++ s)) with (length t) by lia.
  apply take_app_length.
Qed.

Lemma scan_titleTag p pre opening attrs t closing post i :
  includes pre (lit "<") = false ->
  foldCase opening = foldCase (lit "<title") ->
  includes attrs (lit ">") = false ->
  t <> [] -> includes t (lit "<") = false ->
  foldCase closing = foldCase (lit "</title>") ->
  exists m,
    scan titleTag p
      (pre ++ opening ++ attrs ++ lit ">" ++ t ++ closing ++ post) i = Some m
    /\ index m = i + length pre /\ group 1 m = t.
Proof.
  intros Hpre Ho Hattrs Ht Hlt Hc.
  rewrite (scan_needs_lt titleTag _ _ _ eq_refl eq_refl) by exact Hpre.
  destruct (match_here_titleTag (prev_after p pre) opening attrs t closing
              post Ho Hattrs Ht Hlt Hc) as (e & He & Hrest & Hcap).
  destruct (opening ++ attrs ++ lit ">" ++ t ++ closing ++ post) as [|c u];
    cbn [scan]; rewrite He; (eexists; split; [reflexivity|]);
    cbn [index groups]; (split; [reflexivity|]);
    unfold group; cbn [groups]; by rewrite Hcap.
Qed.

(** X15.  The title extraction reads the first title tag: in a document
    that holds no opening angle bracket before it, a tag named [title] in
    any mix of capitals and small letters, with or without attributes,
    around a text without opening angle bracket, gives that text without
    the whitespace at its two ends.  A document without any opening angle
    bracket gives no title. *)
Theorem extractTitle_reads_the_title_tag :
  (forall pre opening attrs t closing post,
     includes pre (lit "<") = false ->
     foldCase opening = foldCase (lit "<title") ->
     includes attrs (lit ">") = false ->
     t <> [] -> includes t (lit "<") = false ->
     foldCase closing = foldCase (lit "</title>") ->
     _extractTitle
       (pre ++ opening ++ attrs ++ lit ">" ++ t ++ closing ++ post)
     = Some (trim t)) /\
  (forall html, includes html (lit "<") = false -> _extractTitle html = None).
Proof.
  split.
  - intros pre opening attrs t closing post Hpre Ho Hattrs Ht Hlt Hc.
    destruct (scan_titleTag None pre opening attrs t closing post 0
                Hpre Ho Hattrs Ht Hlt Hc) as (m & Hm & _ & Hg).
    unfold _extractTitle, match_. rewrite Hm. cbn [firstGroup].
    rewrite Hg. by destruct t.
  - intros html H. unfold _extractTitle, match_.
    rewrite (scan_lacks_lt titleTag _ _ _ _ _ _ eq_refl eq_refl H).
    rewrite (scan_lacks_lt ogTitle _ _ _ _ _ _ eq_refl eq_refl H).
    by rewrite (scan_lacks_lt ogTitleReversed _ _ _ _ _ _ eq_refl eq_refl H).
Qed.

Lemma extractTitle_reads_the_title_tag_witness :
  _extractTitle
    (lit "  " ++ lit "<TITLE" ++ lit " lang=en" ++ lit ">"
       ++ lit " A & B  " ++ lit "</Title>" ++ lit "<meta a=b>")
  = Some (lit "A & B").
Proof.
  rewrite (proj1 extractTitle_reads_the_title_tag (lit "  ") (lit "<TITLE")
             (lit " lang=en") (lit " A & B  ") (lit "</Title>")
             (lit "<meta a=b>") eq_refl eq_refl eq_refl ltac:(discriminate)
             eq_refl eq_refl).
  reflexivity.
Defined.

(** * Further properties of the two tests *)

Lemma scan_reaches re s :
  (forall q, is_Some (match_here re q s)) ->
  forall pre p i, is_Some (scan re p (pre ++ s) i).
Proof.
  intros H. induction pre as [|c pre IH]; intros p i.
  - cbn [app]. destruct (H p) as [e He].
    destruct s; cbn [scan]; rewrite He; by eexists.
  - cbn [app scan]. destruct (match_here re p (c :: pre ++ s));
      [by eexists|apply IH].
Qed.

Lemma test_scan re s :
  global re = true ->
  fst (test re 0 s) = true <-> is_Some (scan re None s 0).
Proof.
  intros Hg. unfold test, exec_from. rewrite Hg.
  change (length s <? 0) with false. rewrite take_0, drop_0. cbn [last].
  destruct (scan re None s 0); cbn [fst]; split; intros H;
    try done; by destruct H.
Qed.

Lemma take_runLength_Forall f : forall s,
  Forall (fun x => f x = true) (take (runLength f s) s).
Proof.
  induction s as [|c s IH]; [constructor|]. cbn [runLength].
  destruct (f c) eqn:E; [|constructor]. cbn [take firstn].
  by constructor.
Qed.

Lemma Forall_not_includes c s :
  Forall (fun x => negb (Ascii.eqb x c) = true) s -> includes s [c] = false.
Proof.
  induction 1 as [|x s Hx Hs IH]; [reflexivity|].
  cbn [includes startsWith]. rewrite andb_true_r.
  apply negb_true_iff in Hx. by rewrite Hx, IH.
Qed.

Lemma readMarkdownLink_parts s title url s' :
  readMarkdownLink s = Some (title, url, s') ->
  title <> [] /\ includes title (lit "]") = false /\
  url <> [] /\ includes url (lit ")") = false.
Proof.
  unfold readMarkdownLink. destruct s as [|c s1]; [discriminate|].
  destruct (Ascii.eqb c "["); [|discriminate]. cbn zeta.
  pose proof (take_runLength_Forall (fun x => negb (Ascii.eqb x "]")) s1) as F1.
  destruct (runLength (fun x => negb (Ascii.eqb x "]")) s1) as [|n1] eqn:E1;
    [discriminate|].
  destruct (drop (S n1) s1) as [|c1 [|c2 s2]]; try discriminate.
  destruct (Ascii.eqb c1 "]" && Ascii.eqb c2 "("); [|discriminate].
  pose proof (take_runLength_Forall (fun x => negb (Ascii.eqb x ")")) s2) as F2.
  destruct (runLength (fun x => negb (Ascii.eqb x ")")) s2) as [|n2] eqn:E2;
    [discriminate|].
  destruct (drop (S n2) s2) as [|c3 s3]; [discriminate|].
  destruct (Ascii.eqb c3 ")"); [|discriminate].
  intros [= <- <- <-].
  split; [|split; [by apply Forall_not_includes|
                   split; [|by apply Forall_not_includes]]].
  - destruct s1; [discriminate E1|discriminate].
  - destruct s2; [discriminate E2|discriminate].
Qed.

Lemma scan_URL_holds s p i :
  is_Some (scan URL_REGEX p s i) <-> holdsUrlToken s.
Proof.
  split.
  - intros [m Hm]. destruct (scan_spec _ _ _ _ _ Hm) as (pre & Hs & _ & Hh & _).
    apply match_here_URL_token in Hh as (w & Hw & Htok).
    apply app_inv_tail in Hw. subst w.
    by exists pre, (matched m), (rest (after m)).
  - intros (pre & w & rest0 & -> & prefix & body & -> & Hp & Hl & Hb & He).
    apply scan_reaches. intros q. rewrite <- app_assoc.
    rewrite (match_here_URL_complete q prefix body rest0 Hp Hb Hl He).
    by eexists.
Qed.

Lemma scan_MARKDOWN_holds s p i :
  is_Some (scan MARKDOWN_LINK_REGEX p s i) <-> holdsMarkdownLink s.
Proof.
  split.
  - intros [m Hm]. destruct (scan_spec _ _ _ _ _ Hm) as (pre & Hs & _ & Hh & _).
    rewrite match_here_MARKDOWN in Hh.
    destruct (readMarkdownLink (matched m ++ rest (after m)))
      as [[[title url] s']|] eqn:E; [|discriminate].
    exists pre, title, url, s'. split.
    + rewrite Hs. f_equal. by apply readMarkdownLink_shape.
    + by apply readMarkdownLink_parts in E.
  - intros (pre & title & url & rest0 & -> & Ht & Hnt & Hu & Hnu).
    apply scan_reaches. intros q. rewrite match_here_MARKDOWN.
    rewrite readMarkdownLink_link by assumption. by eexists.
Qed.

Lemma test_URL_holds text :
  fst (test URL_REGEX 0 text) = true <-> holdsUrlToken text.
Proof. rewrite (test_scan URL_REGEX text eq_refl). apply scan_URL_holds. Qed.

Lemma test_MARKDOWN_holds text :
  fst (test MARKDOWN_LINK_REGEX 0 text) = true <-> holdsMarkdownLink text.
Proof.
  rewrite (test_scan MARKDOWN_LINK_REGEX text eq_refl).
  apply scan_MARKDOWN_holds.
Qed.

(** X16.  The two tests of a call answer for the text what their
    patterns stand for: the test for plain URLs is true exactly when the
    text holds a token of the detector somewhere, and the test for
    markdown links exactly when it holds a markdown link somewhere. *)
Theorem tests_answer_for_tokens_and_links (text : str) :
  (fst (test URL_REGEX 0 text) = true <-> holdsUrlToken text) /\
  (fst (test MARKDOWN_LINK_REGEX 0 text) = true <-> holdsMarkdownLink text).
Proof. split; [apply test_URL_holds|apply test_MARKDOWN_holds]. Qed.

(** X17.  A text that holds neither a token of the detector nor a
    markdown link is returned escaped and nothing else, also when it
    holds one of the hints. *)
Theorem text_without_token_or_link_is_escaped (text : str) :
  ~ holdsUrlToken text -> ~ holdsMarkdownLink text ->
  render text true = Some (_escapeHtml text).
Proof.
  intros Hu Hm. destruct text as [|c t]; [reflexivity|].
  unfold render. rewrite transform_links. cbn zeta.
  destruct (negb _ && negb _); [reflexivity|].
  destruct (fst (test MARKDOWN_LINK_REGEX 0 (c :: t))) eqn:Em;
    [exfalso; by apply Hm, test_MARKDOWN_holds|].
  destruct (fst (test URL_REGEX 0 (c :: t))) eqn:Eu;
    [exfalso; by apply Hu, test_URL_holds|].
  reflexivity.
Qed.

Lemma text_without_token_or_link_is_escaped_witness :
  render (lit "a <b> [x]( y ://z www. ") true
  = Some (lit "a &lt;b&gt; [x]( y ://z www. ").
Proof.
  rewrite text_without_token_or_link_is_escaped; [reflexivity| |].
  - intros H. apply test_URL_holds in H. discriminate H.
  - intros H. apply test_MARKDOWN_holds in H. discriminate H.
Defined.
